(** * Maestro feature orchestration engine: a shallow embedding

    The development follows the TypeScript sources of the orchestration
    core: [utils/orchestration.ts] (session builder, prompt injector,
    workspace provisioner, state tracker), [commands/implement.ts] (the
    orchestrator), [schemas/maestro.ts] (configuration validation) and
    [types/orchestration.ts] (the data model).  The dependency resolver of
    [utils/maestro.ts] is only visible through its tests and its callers. *)

From Stdlib Require Import Ascii String QArith Qround DecimalString.
From stdpp Require Import gmap strings list fin_maps relations.

#[local] Set Warnings "-clear-no-such-hyp".

Local Open Scope string_scope.
Local Open Scope list_scope.
Local Open Scope nat_scope.

(** ** Data model ([types/orchestration.ts]) *)

Inductive Layout :=
| EvenHorizontal | EvenVertical | MainHorizontal | MainVertical | Tiled.

(** A JavaScript string is a sequence of code units; [string] stands for
    it, one [ascii] per code unit.  [panes] is a JavaScript [number]; every
    finite one is a rational. *)
Record SessionConfig := mkSessionConfig {
  sc_name : string;
  panes : Q;
  layout : option Layout;
  prompts : list string;
}.

(** The two revisions of the feature type spell some fields differently
    ([name]/[feature], [claudeContext]/[claude_context]); one record holds
    the fields either revision reads.  A feature is taken to carry its name
    under the spelling that each function reads: [name] stands for
    [feature.name] in [commands/implement.ts] and for [feature.feature] in
    [utils/orchestration.ts].  The optional lists [sessions] and
    [dependencies] are taken to be present: [implement.ts] and
    [createOrchestraSession] read them through [x || []], for which an
    absent list is the empty list, and [customizeClaudeMd] and
    [displayImplementationSummary] read [feature.sessions] unguarded. *)
Record FeatureConfig := mkFeatureConfig {
  name : string;
  description : string;
  base : option string;
  branch_prefix : option string;
  sessions : list SessionConfig;
  claudeContext : option string;
  agents : option (list string);
  dependencies : list string;
}.

Inductive SessionStatus := SessionPending | SessionCreated | SessionActive.
Inductive FeatureStatus :=
| FeaturePending | FeatureCreated | FeatureActive | FeatureCompleted.
Inductive OrchestraStatus := Planning | Implementing | Active | Completed.

Record SessionState := mkSessionState {
  ss_name : string;
  session_name : string;
  ss_panes : Q;
  ss_status : SessionStatus;
  attached_count : nat;
}.

Record FeatureState := mkFeatureState {
  fs_feature : string;
  worktree_path : string;
  fs_sessions : list SessionState;
  fs_status : FeatureStatus;
  fs_created_at : option string;
  fs_completed_at : option string;
}.

Record OrchestraState := mkOrchestraState {
  created_at : string;
  features : list FeatureState;
  status : OrchestraStatus;
}.

(** ** Session names ([utils/orchestration.ts], [getSessionName]) *)

Definition in_range (lo hi c : ascii) : bool :=
  ((N_of_ascii lo <=? N_of_ascii c) && (N_of_ascii c <=? N_of_ascii hi))%N.

(** The character class [[a-zA-Z0-9-]]. *)
Definition in_class (c : ascii) : bool :=
  in_range "a" "z" c || in_range "A" "Z" c || in_range "0" "9" c
  || Ascii.eqb c "-".

(** [s.replace(/[^a-zA-Z0-9-]/g, '-')]: every character that the negated
    class matches is replaced, the others are kept. *)
Fixpoint replace_outside_class (s : string) : string :=
  match s with
  | EmptyString => EmptyString
  | String c rest =>
      String (if in_class c then c else "-"%char) (replace_outside_class rest)
  end.

(** The template literal [`${feature}-${session}`]. *)
Definition dashed (feature session : string) : string :=
  feature +:+ "-" +:+ session.

Definition getSessionName (feature session : string) : string :=
  substring 0 30 (replace_outside_class (dashed feature session)).

(** ** Effects

    The orchestration code talks to git, tmux, the package manager and the
    file system through promises that may be rejected.  Its functions are
    embedded in a state and error monad over an abstract outside world; the
    requests made are also recorded, in order, in a trace. *)

Record JsError := mkError { message : string }.

(** The requests of the collaborators' interfaces.  [GitDeleteWorktree] is
    [deleteWorktree(name, force)] of the worktree manager. *)
Inductive Call :=
| GitCreateWorktree (branchName baseBranch : string)
| GitDeleteWorktree (branchName : string) (force : bool)
| Tmux (args : list string)
| Install (packageManager cwd : string)
| Mkdir (path : string)
| WriteFile (path data : string)
| AppendFile (path data : string)
| ReadFile (path : string).

Inductive Event :=
| Called (c : Call)
| Slept (ms : nat)
| ConsoleWarn (label : string)
| ConsoleError (label : string) (e : JsError).

(** What the code takes from its runtime: the answers of the collaborators
    ([answer], an error value for a rejected promise), the environment, the
    clock, the JSON functions of the language, [detectPackageManager] of
    [utils/packageManager.ts] and the text that the CLAUDE.md template of
    [customizeClaudeMd] produces (its wording is not interpreted here).
    [JSON_parse] gives an error for a syntax error and [None] for the JSON
    value null. *)
Class Runtime (W : Type) := {
  answer : Call → W → (JsError + string) * W;
  env_SHELL : option string;
  now_toISOString : W → string;
  detectPackageManager : string → W → option string;
  claudeMd_text : FeatureConfig → bool → string;
  JSON_stringify : OrchestraState → string;
  JSON_parse : string → JsError + option OrchestraState;
}.

Record World (W : Type) := mkWorld {
  outside : W;
  trace : list Event;
}.
Arguments mkWorld {W} outside trace.
Arguments outside {W} w.
Arguments trace {W} w.

(** How a computation ends: with a value, with a thrown error, or with
    [process.exit(code)], which no [catch] intercepts. *)
Inductive Res (A : Type) :=
| Return (a : A)
| Throw (e : JsError)
| Exit (code : Z).
Arguments Return {A} a.
Arguments Throw {A} e.
Arguments Exit {A} code.

Definition M (W A : Type) : Type := World W → Res A * World W.

Section Monad.

Context {W : Type} `{Runtime W}.

Definition ret {A} (a : A) : M W A := λ w, (Return a, w).

Definition bind {A B} (m : M W A) (k : A → M W B) : M W B :=
  λ w, match m w with
       | (Return a, w') => k a w'
       | (Throw e, w') => (Throw e, w')
       | (Exit c, w') => (Exit c, w')
       end.

Definition throw {A} (e : JsError) : M W A := λ w, (Throw e, w).

Definition process_exit {A} (code : Z) : M W A := λ w, (Exit code, w).

Definition try_catch {A} (m : M W A) (handler : JsError → M W A) : M W A :=
  λ w, match m w with
       | (Throw e, w') => handler e w'
       | other => other
       end.

Definition emit (ev : Event) : M W unit :=
  λ w, (Return tt, mkWorld (outside w) (trace w ++ [ev])).

(** An awaited request: it is recorded, the outside world answers, and a
    rejection is thrown. *)
Definition call (c : Call) : M W string :=
  λ w, let (r, o) := answer c (outside w) in
       let w' := mkWorld o (trace w ++ [Called c]) in
       match r with
       | inl e => (Throw e, w')
       | inr v => (Return v, w')
       end.

Definition read {A} (f : W → A) : M W A := λ w, (Return (f (outside w)), w).

End Monad.

#[global] Instance M_ret {W} : MRet (M W) := λ A, @ret W A.
#[global] Instance M_bind {W} : MBind (M W) := λ A B k m, @bind W A B m k.

Section Loops.

Context {W : Type} `{Runtime W}.

(** [for (const x of xs) body(x)] *)
Fixpoint for_each {A} (xs : list A) (body : A → M W unit) : M W unit :=
  match xs with
  | [] => ret tt
  | x :: rest => body x;; for_each rest body
  end.

(** A loop that updates a local variable. *)
Fixpoint for_fold {A S} (xs : list A) (body : A → S → M W S) (s : S) : M W S :=
  match xs with
  | [] => ret s
  | x :: rest => s' ← body x s; for_fold rest body s'
  end.

End Loops.

(** A JavaScript [Map<string, string>]: insertion-ordered, [set] on a
    present key replaces the value in place. *)
Fixpoint map_set {V} (k : string) (v : V) (m : list (string * V))
    : list (string * V) :=
  match m with
  | [] => [(k, v)]
  | (k', v') :: rest =>
      if String.eqb k' k then (k, v) :: rest else (k', v') :: map_set k v rest
  end.

Fixpoint map_get {V} (k : string) (m : list (string * V)) : option V :=
  match m with
  | [] => None
  | (k', v) :: rest => if String.eqb k' k then Some v else map_get k rest
  end.

(** ** [utils/orchestration.ts] *)

Definition layout_name (l : Layout) : string :=
  match l with
  | EvenHorizontal => "even-horizontal"
  | EvenVertical => "even-vertical"
  | MainHorizontal => "main-horizontal"
  | MainVertical => "main-vertical"
  | Tiled => "tiled"
  end.

(** The flag pushed for the split that creates pane [i]. *)
Definition split_flag (l : option Layout) (i : nat) : string :=
  match l with
  | Some EvenHorizontal | Some MainHorizontal => "-h"
  | Some EvenVertical | Some MainVertical => "-v"
  | _ => if i mod 2 =? 0 then "-h" else "-v"
  end.

(** The values of [i] in [for (let i = 1; i < session.panes; i++)]. *)
Definition split_indices (p : Q) : list nat :=
  seq 1 (Z.to_nat (Qceiling p) - 1).

(** [`${i}`] for a loop counter. *)
Definition string_of_nat (i : nat) : string :=
  NilEmpty.string_of_uint (Nat.to_uint i).

(** [`${sessionName}:0.${i}`] *)
Definition pane_target (sessionName : string) (i : nat) : string :=
  sessionName +:+ ":0." +:+ string_of_nat i.

Definition execution_hint : string := " # [Press Enter to execute]".

(** JavaScript truthiness of an optional string. *)
Definition truthy (s : option string) : bool :=
  match s with
  | Some v => negb (String.eqb v "")
  | None => false
  end.

(** [path.join(dir, file)] for a directory without a trailing slash. *)
Definition path_join (dir file : string) : string := dir +:+ "/" +:+ file.

Definition state_path : string := path_join ".maestro" "orchestra.state.json".

Inductive ClaudeMdMode := Shared | Split.

Section Orchestration.

Context {W : Type} `{Runtime W}.

Definition shell : string :=
  if truthy (env_SHELL (W := W)) then default "" (env_SHELL (W := W))
  else "/bin/bash".

Definition checkTmuxInstalled : M W bool :=
  try_catch (call (Tmux ["-V"]);; mret true) (λ _, mret false).

Definition createTmuxSession (feature : string) (session : SessionConfig)
    (worktreePath : string) : M W string :=
  let sessionName := getSessionName feature (sc_name session) in
  found ← try_catch (call (Tmux ["has-session"; "-t"; sessionName]);; mret true)
                    (λ _, mret false);
  if (found : bool) then mret sessionName
  else
    call (Tmux ["new-session"; "-d"; "-s"; sessionName; "-c"; worktreePath;
                shell; "-l"]);;
    for_each (split_indices (panes session)) (λ i,
      call (Tmux (["split-window"; "-t"; sessionName; "-c"; worktreePath]
                  ++ [split_flag (layout session) i] ++ [shell; "-l"]));;
      mret tt);;
    match layout session with
    | Some l => call (Tmux ["select-layout"; "-t"; sessionName; layout_name l]);;
                mret tt
    | None => mret tt
    end;;
    call (Tmux ["rename-window"; "-t"; sessionName; sc_name session]);;
    mret sessionName.

Definition injectPrompts (sessionName : string) (prompts : list string)
    : M W unit :=
  for_each (imap (λ i p, (i, p)) prompts) (λ '(i, prompt),
    let target := pane_target sessionName i in
    if String.eqb prompt "" then mret tt
    else
      call (Tmux ["send-keys"; "-t"; target; "C-c"]);;
      emit (Slept 100);;
      call (Tmux ["send-keys"; "-t"; target; prompt]);;
      call (Tmux ["send-keys"; "-t"; target; execution_hint]);;
      mret tt).

Definition customizeClaudeMd (feature : FeatureConfig) (worktreePath : string)
    (mode : ClaudeMdMode) : M W unit :=
  let claudePath := path_join worktreePath "CLAUDE.md" in
  match mode with
  | Split => call (WriteFile claudePath (claudeMd_text (W := W) feature true));;
             mret tt
  | Shared => call (AppendFile claudePath (claudeMd_text (W := W) feature false));;
              mret tt
  end.

(** The inner [createWorktree] of [createWorktrees]; [paths] is the shared
    [worktreePaths] map. *)
Definition createWorktree (baseBranch : string) (feature : FeatureConfig)
    (paths : list (string * string)) : M W (list (string * string)) :=
  let branchName :=
    if truthy (branch_prefix feature)
    then default "" (branch_prefix feature) +:+ name feature
    else name feature in
  try_catch
    (worktreePath ← call (GitCreateWorktree branchName baseBranch);
     mret (map_set (name feature) worktreePath paths))
    (λ e, emit (ConsoleError ("Failed to create worktree for " +:+ name feature) e);;
          throw e).

(** A request that has been made and answered while its promise is not
    awaited yet: the answer is kept, nothing is thrown. *)
Definition pending (c : Call) : M W (JsError + string) :=
  try_catch (v ← call c; mret (inr v)) (λ e, mret (inl e)).

(** The first part of the inner [createWorktree], up to its [await]: the
    call of [manager.createWorktree]. *)
Definition createWorktree_start (baseBranch : string) (feature : FeatureConfig)
    : M W (JsError + string) :=
  let branchName :=
    if truthy (branch_prefix feature)
    then default "" (branch_prefix feature) +:+ name feature
    else name feature in
  pending (GitCreateWorktree branchName baseBranch).

(** The rest of the inner [createWorktree], from the answer on. *)
Definition createWorktree_resume (feature : FeatureConfig)
    (answered : JsError + string) (paths : list (string * string))
    : M W (list (string * string)) :=
  match answered with
  | inr worktreePath => mret (map_set (name feature) worktreePath paths)
  | inl e =>
      emit (ConsoleError ("Failed to create worktree for " +:+ name feature) e);;
      throw e
  end.

(** [await Promise.all(features.map(createWorktree))].  [map] calls the
    async [createWorktree] for each feature in turn, and each call runs to
    its [await]: every request is made, in the order of the features,
    before any answer is handled.  The requests are atomic and answered in
    the order issued; the bodies resume in that order, and the first
    rejection rejects the whole.  What the bodies after it do happens
    after [createWorktrees] has thrown, and is not part of its run. *)
Definition promise_all (features : list FeatureConfig) (baseBranch : string)
    : M W (list (string * string)) :=
  started ←
    for_fold features (λ feature started,
      answered ← createWorktree_start baseBranch feature;
      mret (started ++ [(feature, answered)])) [];
  for_fold started (λ '(feature, answered) paths,
    createWorktree_resume feature answered paths) [].

Definition createWorktrees (features : list FeatureConfig)
    (baseBranch : string) (parallel : bool) : M W (list (string * string)) :=
  if parallel then promise_all features baseBranch
  else for_fold features (createWorktree baseBranch) [].

Definition saveOrchestraState (state : OrchestraState) : M W unit :=
  call (Mkdir ".maestro");;
  call (WriteFile state_path (JSON_stringify (W := W) state));;
  mret tt.

Definition loadOrchestraState : M W (option OrchestraState) :=
  try_catch
    (content ← call (ReadFile state_path);
     match JSON_parse (W := W) content with
     | inl e => throw e
     | inr v => mret v
     end)
    (λ _, mret None).

End Orchestration.

(** ** [commands/implement.ts] *)

Record Options := mkOptions {
  skipDeps : bool;
  sequential : bool;
}.

Record Config := mkConfig {
  cfg_features : option (list FeatureConfig);
  settings_parallel : option bool;
}.

(** [featureOrder.map(name => config.features?.find(f => f.name === name))
    .filter(f => f !== undefined)] *)
Definition orderedFeatures (config : Config) (featureOrder : list string)
    : list FeatureConfig :=
  omap (λ n, find (λ f, String.eqb (name f) n) (default [] (cfg_features config)))
       featureOrder.

(** The [session_name] expression of the state literal. *)
Definition state_session_name (f : FeatureConfig) (s : SessionConfig) : string :=
  replace_outside_class (dashed (name f) (sc_name s)).

(** The state literal of lines 164-180; [now] is [new Date().toISOString()]. *)
Definition buildState (ordered : list FeatureConfig)
    (worktreePaths : list (string * string)) (now : string) : OrchestraState :=
  {| created_at := now;
     status := Active;
     features :=
       map (λ f,
         {| fs_feature := name f;
            worktree_path :=
              (if truthy (map_get (name f) worktreePaths)
               then default "" (map_get (name f) worktreePaths) else "");
            fs_status := FeatureCreated;
            fs_created_at := Some now;
            fs_completed_at := None;
            fs_sessions :=
              map (λ s,
                {| ss_name := sc_name s;
                   session_name := state_session_name f s;
                   ss_panes := panes s;
                   ss_status := SessionCreated;
                   attached_count := 0 |}) (sessions f) |}) ordered |}.

Section Implement.

Context {W : Type} `{Runtime W}.

(** Lines 104-124. *)
Definition installDependencies (worktreePaths : list (string * string))
    : M W unit :=
  for_each worktreePaths (λ '(feature, worktreePath),
    packageManager ← read (detectPackageManager worktreePath);
    if truthy packageManager then
      try_catch
        (call (Install (default "" packageManager) worktreePath);; mret tt)
        (λ _, emit (ConsoleWarn ("Failed to install deps for " +:+ feature)))
    else mret tt).

(** Lines 126-159; the result is [sessionMap]. *)
Definition buildSessions (ordered : list FeatureConfig)
    (worktreePaths : list (string * string))
    : M W (list (string * list string)) :=
  for_fold ordered (λ feature sessionMap,
    if truthy (map_get (name feature) worktreePaths) then
      let worktreePath := default "" (map_get (name feature) worktreePaths) in
      featureSessions ←
        for_fold (sessions feature) (λ session acc,
          sessionName ← createTmuxSession (name feature) session worktreePath;
          injectPrompts sessionName (prompts session);;
          mret (acc ++ [sessionName])) [];
      (if truthy (claudeContext feature) || bool_decide (is_Some (agents feature))
       then customizeClaudeMd feature worktreePath Split
       else mret tt);;
      mret (map_set (name feature) featureSessions sessionMap)
    else mret sessionMap) [].

(** The action of the command from line 87 on.  The checks before it (tmux
    present, git repository, plan loaded, dependencies valid, dry run) exit
    or return before anything is created; [featureOrder] is what
    [getTopologicalOrder(config)] of [utils/maestro.ts] returned.  Progress
    output (spinners, [console.log]) is left out, and with it the closing
    [displayImplementationSummary], which only prints for features whose
    list of sessions is present. *)
Definition implementCommand (options : Options) (config : Config)
    (featureOrder : list string) : M W unit :=
  try_catch
    (let ordered := orderedFeatures config featureOrder in
     worktreePaths ←
       createWorktrees ordered "main"
         (negb (sequential options) && default true (settings_parallel config));
     (if negb (skipDeps options) then installDependencies worktreePaths
      else mret tt);;
     buildSessions ordered worktreePaths;;
     now ← read now_toISOString;
     saveOrchestraState (buildState ordered worktreePaths now))
    (λ e, emit (ConsoleError "Implementation failed:" e);; process_exit 1).

End Implement.

(** ** [schemas/maestro.ts] *)

(** [z.number().min(1).max(10, ...)] on a finite number. *)
Definition panes_valid (p : Q) : bool := Qle_bool 1 p && Qle_bool p 10.

Definition SessionConfigSchema (s : SessionConfig) : bool :=
  (1 <=? String.length (sc_name s))
  && panes_valid (panes s)
  && (1 <=? length (prompts s)).

(** ** The session id as the specification words it

    A second definition, for comparison with [getSessionName]: the
    characters allowed in an id are listed, every other character of
    featureName-sessionName becomes a dash, and the first 30 characters
    are kept. *)

Definition allowed_chars : list ascii :=
  list_ascii_of_string
    "ABCDEFGHIJKLMNOPQRSTUVWXYZabcdefghijklmnopqrstuvwxyz0123456789-".

Definition spec_sanitize_char (c : ascii) : ascii :=
  if bool_decide (c ∈ allowed_chars) then c else "-"%char.

Definition spec_session_id (featureName sessionName : string) : string :=
  string_of_list_ascii
    (take 30 (map spec_sanitize_char
       (list_ascii_of_string featureName ++ ["-"%char]
        ++ list_ascii_of_string sessionName))).

(** ** A simulated outside world

    A stand-in for git, tmux and the file system, used to run the code on
    concrete inputs: git refuses the branches listed in [refused], tmux
    keeps its sessions with their pane counts, the file system is a map
    from paths to contents. *)

Module Sim.

Record world := mkSim {
  refused : list string;
  worktrees : list string;
  tmux_sessions : list (string * nat);
  files : list (string * string);
  unreadable : list string;
}.

Definition initial : world := mkSim [] [] [] [] [].

Definition ok (w : world) : (JsError + string) * world := (inr "", w).
Definition fail (msg : string) (w : world) : (JsError + string) * world :=
  (inl (mkError msg), w).

Definition has (xs : list string) (x : string) : bool :=
  existsb (String.eqb x) xs.

Definition with_worktrees (w : world) (ws : list string) : world :=
  mkSim (refused w) ws (tmux_sessions w) (files w) (unreadable w).
Definition with_sessions (w : world) (ss : list (string * nat)) : world :=
  mkSim (refused w) (worktrees w) ss (files w) (unreadable w).
Definition with_files (w : world) (fs : list (string * string)) : world :=
  mkSim (refused w) (worktrees w) (tmux_sessions w) fs (unreadable w).

Definition has_pane (w : world) (target : string) : bool :=
  existsb (λ '(n, k), existsb (λ i, String.eqb target (pane_target n i)) (seq 0 k))
          (tmux_sessions w).

Definition tmux (args : list string) (w : world) : (JsError + string) * world :=
  match args with
  | [] => fail "usage" w
  | cmd :: rest =>
      if String.eqb cmd "-V" then ok w
      else if String.eqb cmd "has-session" then
        match rest with
        | [_; n] => if bool_decide (is_Some (map_get n (tmux_sessions w)))
                    then ok w else fail "can't find session" w
        | _ => fail "usage" w
        end
      else if String.eqb cmd "new-session" then
        match rest with
        | _ :: _ :: n :: _ =>
            if bool_decide (is_Some (map_get n (tmux_sessions w)))
            then fail "duplicate session" w
            else ok (with_sessions w (map_set n 1 (tmux_sessions w)))
        | _ => fail "usage" w
        end
      else if String.eqb cmd "split-window" then
        match rest with
        | _ :: n :: _ =>
            match map_get n (tmux_sessions w) with
            | Some k => ok (with_sessions w (map_set n (S k) (tmux_sessions w)))
            | None => fail "can't find session" w
            end
        | _ => fail "usage" w
        end
      else if String.eqb cmd "send-keys" then
        match rest with
        | _ :: target :: _ =>
            if has_pane w target then ok w else fail "can't find pane" w
        | _ => fail "usage" w
        end
      else
        match rest with
        | _ :: n :: _ => if bool_decide (is_Some (map_get n (tmux_sessions w)))
                         then ok w else fail "can't find session" w
        | _ => fail "usage" w
        end
  end.

Definition worktree_dir (branch : string) : string := "/repo/.git/orchestra/" +:+ branch.

Definition respond (c : Call) (w : world) : (JsError + string) * world :=
  match c with
  | GitCreateWorktree b _ =>
      if has (refused w) b || has (worktrees w) b
      then fail ("fatal: cannot create worktree " +:+ b) w
      else (inr (worktree_dir b), with_worktrees w (worktrees w ++ [b]))
  | GitDeleteWorktree b _ =>
      ok (with_worktrees w (filter (λ x, x ≠ b) (worktrees w)))
  | Tmux args => tmux args w
  | Install _ _ => ok w
  | Mkdir _ => ok w
  | WriteFile p d => ok (with_files w (map_set p d (files w)))
  | AppendFile p d =>
      ok (with_files w (map_set p (default "" (map_get p (files w)) +:+ d) (files w)))
  | ReadFile p =>
      if has (unreadable w) p then fail "EACCES" w
      else match map_get p (files w) with
           | Some d => (inr d, w)
           | None => fail "ENOENT" w
           end
  end.

(** A stand-in for the JSON functions on states of plain feature names.
    [stringify] writes the JSON object whose one member, features, is the
    array of the feature names of the state.  [parse] reads the text null
    and the texts that [stringify] writes for non-empty names of letters,
    digits, dashes and underscores; every other text is a syntax error
    here, as every text that is not JSON is for [JSON.parse]. *)
Definition dq : ascii := "034"%char.

Definition quoted (s : string) : string := String dq (s +:+ String dq "").

Definition document (names : list string) : OrchestraState :=
  mkOrchestraState ""
    (map (λ n, mkFeatureState n "" [] FeatureCreated None None) names) Active.

Definition stringify (st : OrchestraState) : string :=
  "{" +:+ quoted "features" +:+ ":["
  +:+ String.concat "," (map (λ f, quoted (fs_feature f)) (features st))
  +:+ "]}".

Definition plain (c : ascii) : bool := in_class c || Ascii.eqb c "_".

(** The maximal runs of plain characters of a text. *)
Fixpoint runs (s current : string) : list string :=
  match s with
  | EmptyString => if String.eqb current "" then [] else [current]
  | String c rest =>
      if plain c then runs rest (current +:+ String c "")
      else (if String.eqb current "" then [] else [current]) ++ runs rest ""
  end.

Definition parse (s : string) : JsError + option OrchestraState :=
  if String.eqb s "null" then inr None
  else
    let st := document (tail (runs s "")) in
    if String.eqb (stringify st) s then inr (Some st)
    else inl (mkError "SyntaxError").

#[global] Instance runtime : Runtime world := {|
  answer := respond;
  env_SHELL := Some "/bin/zsh";
  now_toISOString := λ _, "2024-01-01T00:00:00.000Z";
  detectPackageManager := λ _ _, None;
  claudeMd_text := λ f _, name f;
  JSON_stringify := stringify;
  JSON_parse := parse;
|}.

Definition start (o : world) : World world := mkWorld o [].

(** Sessions and features of the tests of [utils/orchestration.ts]. *)
Definition dev4 : SessionConfig :=
  mkSessionConfig "dev" 4 (Some Tiled) ["vim"; "npm test"; "npm run dev"; "git status"].

Definition dev3 : SessionConfig :=
  mkSessionConfig "dev" 3 (Some Tiled) ["vim ."; "npm test --watch"].

Definition backend : SessionConfig :=
  mkSessionConfig "backend" 2 (Some EvenHorizontal) ["npm run server"; "npm test"].

End Sim.

(** ** Dependency resolver *)

Module Resolver.

Inductive ResolveError :=
| CircularDependencyError (at_name : string).

Inductive outcome (A : Type) :=
| Resolved (a : A)
| Raised (e : ResolveError)
| OutOfFuel.
Arguments Resolved {A} a.
Arguments Raised {A} e.
Arguments OutOfFuel {A}.

(** The two marks kept per node, and the post-order built so far. *)
Record marks := mkMarks {
  in_progress : gset string;
  is_done : gset string;
  order : list string;
}.

Definition no_marks : marks := mkMarks ∅ ∅ [].

Definition enter (n : string) (m : marks) : marks :=
  mkMarks ({[n]} ∪ in_progress m) (is_done m) (order m).

Definition leave (n : string) (m : marks) : marks :=
  mkMarks (in_progress m ∖ {[n]}) ({[n]} ∪ is_done m) (order m ++ [n]).

Fixpoint visit_all (visit : string → marks → outcome marks)
    (names : list string) (m : marks) : outcome marks :=
  match names with
  | [] => Resolved m
  | n :: rest =>
      match visit n m with
      | Resolved m' => visit_all visit rest m'
      | other => other
      end
  end.

Section Resolve.

Variable allFeatures : gmap string FeatureConfig.

(** Modelled from the spec: the resolver of [utils/maestro.ts], which is
    not among the sources (only its tests and callers are).  Section 4.1:
    depth-first expansion from each requested name with an in-progress and
    a done mark per node; a node met while in progress is a cycle; names
    absent from the feature map are skipped; a node is appended after all
    of its dependencies.  [fuel] bounds the recursion depth. *)
Fixpoint visit (fuel : nat) (n : string) (m : marks) : outcome marks :=
  match fuel with
  | O => OutOfFuel
  | S fuel' =>
      if decide (n ∈ is_done m) then Resolved m
      else if decide (n ∈ in_progress m) then Raised (CircularDependencyError n)
      else match allFeatures !! n with
           | None => Resolved m
           | Some f =>
               match visit_all (visit fuel') (dependencies f) (enter n m) with
               | Resolved m' => Resolved (leave n m')
               | other => other
               end
           end
  end.

(** Modelled from the spec: [resolve(requested, allFeatures)] of section
    4.1.  The depth of the expansion never exceeds the number of features,
    so one more than that is always enough fuel ([resolve_total]). *)
Definition resolve (requested : list string) : outcome (list string) :=
  match visit_all (visit (S (size allFeatures))) requested no_marks with
  | Resolved m => Resolved (order m)
  | Raised e => Raised e
  | OutOfFuel => OutOfFuel
  end.

(** [declares a d]: feature [a] exists and lists [d] as a dependency. *)
Definition declares (a d : string) : Prop :=
  ∃ f, allFeatures !! a = Some f ∧ d ∈ dependencies f.

Definition known (a : string) : Prop := is_Some (allFeatures !! a).

Definition acyclic : Prop := ∀ a, ¬ tc declares a a.

(** The features of the transitive dependency closure of [requested]. *)
Definition in_closure (requested : list string) (x : string) : Prop :=
  known x ∧ ∃ r, r ∈ requested ∧ rtc declares r x.

(** A cycle that the expansion from [requested] can reach. *)
Definition reachable_cycle (requested : list string) : Prop :=
  ∃ r a, r ∈ requested ∧ rtc declares r a ∧ tc declares a a.

(** A post-order in which each feature comes after its existing
    dependencies. *)
Inductive topo : list string → Prop :=
| topo_nil : topo []
| topo_snoc l a f :
    topo l → a ∉ l → allFeatures !! a = Some f →
    (∀ d, d ∈ dependencies f → known d → d ∈ l) →
    topo (l ++ [a]).

Record marks_ok (m : marks) : Prop := {
  ok_in_progress : in_progress m ⊆ dom allFeatures;
  ok_done : is_done m = list_to_set (order m);
  ok_disjoint : in_progress m ## is_done m;
  ok_topo : topo (order m);
}.

(** What a successful expansion of the names [xs] adds to the marks. *)
Record expanded (xs : list string) (m m' : marks) : Prop := {
  ex_ok : marks_ok m';
  ex_in_progress : in_progress m' = in_progress m;
  ex_order : ∃ new : list string, order m' = order m ++ new ∧
             ∀ y, y ∈ new → ∃ x, x ∈ xs ∧ rtc declares x y;
  ex_all : ∀ x, x ∈ xs → known x → x ∈ order m';
}.

(** The expansion of [xs] starts from consistent marks, every node in
    progress reaches each of [xs] through at least one dependency edge, and
    the fuel left covers the features not yet in progress. *)
Definition pre (fuel : nat) (xs : list string) (m : marks) : Prop :=
  marks_ok m ∧
  (∀ v x, v ∈ in_progress m → x ∈ xs → tc declares v x) ∧
  size allFeatures < size (in_progress m) + fuel.

Definition post (xs : list string) (m : marks) (o : outcome marks) : Prop :=
  match o with
  | OutOfFuel => False
  | Raised _ => ∃ a, tc declares a a
  | Resolved m' => expanded xs m m'
  end.

End Resolve.

(** The feature map of a configuration: the first entry of a name wins, as
    with [features.find(f => f.name === name)]. *)
Definition feature_map (features : list FeatureConfig)
    : gmap string FeatureConfig :=
  list_to_map ((λ f, (name f, f)) <$> features).

Definition plain_feature (n : string) (deps : list string) : FeatureConfig :=
  mkFeatureConfig n n (Some "main") None [] None None deps.

(** The graphs of the resolver's tests. *)
Definition configWithDeps : gmap string FeatureConfig :=
  feature_map [plain_feature "auth" [];
               plain_feature "api" ["auth"];
               plain_feature "ui" ["auth"; "api"]].

Definition circularConfig : gmap string FeatureConfig :=
  feature_map [plain_feature "a" ["b"];
               plain_feature "b" ["c"];
               plain_feature "c" ["a"]].

Definition selfRefConfig : gmap string FeatureConfig :=
  feature_map [plain_feature "self" ["self"]].

End Resolver.

(** ** Observations on traces

    The vocabulary in which the properties below are stated. *)

Definition is_split (ev : Event) : bool :=
  match ev with
  | Called (Tmux (cmd :: _)) => String.eqb cmd "split-window"
  | _ => false
  end.

(** The pane-split operations of a trace. *)
Definition splits (t : list Event) : list Event := filter is_split t.

(** The bound that the specification gives for a layout. *)
Definition specified_max (l : option Layout) : Q :=
  match l with
  | Some EvenVertical | Some MainVertical => 15
  | _ => 10
  end.

(** What the injector sends for prompt [i]: an interrupt, the settling
    delay, the prompt text, and the hint text; nothing for an empty
    prompt. *)
Definition prompt_events (sessionName : string) (i : nat) (prompt : string)
    : list Event :=
  if String.eqb prompt "" then []
  else [Called (Tmux ["send-keys"; "-t"; pane_target sessionName i; "C-c"]);
        Slept 100;
        Called (Tmux ["send-keys"; "-t"; pane_target sessionName i; prompt]);
        Called (Tmux ["send-keys"; "-t"; pane_target sessionName i;
                      execution_hint])].

Definition inject_events (sessionName : string) (prompts : list string)
    : list Event :=
  concat (imap (prompt_events sessionName) prompts).

Definition is_delete (ev : Event) : bool :=
  match ev with
  | Called (GitDeleteWorktree _ _) => true
  | _ => false
  end.

(** The worktree deletions requested in a trace. *)
Definition deletions (t : list Event) : list Event := filter is_delete t.

Section Observations.

Context {W : Type} `{Runtime W}.

Definition has_session_call (id : string) : Call :=
  Tmux ["has-session"; "-t"; id].

Definition split_call (id worktreePath : string) (l : option Layout) (i : nat)
    : Call :=
  Tmux ["split-window"; "-t"; id; "-c"; worktreePath; split_flag l i;
        shell (W := W); "-l"].

(** The body of the loop of [injectPrompts]. *)
Definition inject_body (sessionName : string) : nat * string → M W unit :=
  λ '(i, prompt),
    let target := pane_target sessionName i in
    if String.eqb prompt "" then mret tt
    else
      call (Tmux ["send-keys"; "-t"; target; "C-c"]);;
      emit (Slept 100);;
      call (Tmux ["send-keys"; "-t"; target; prompt]);;
      call (Tmux ["send-keys"; "-t"; target; execution_hint]);;
      mret tt.

(** The events of a computation are a prefix of [all], and all of [all]
    when it returns; it does not exit. *)
Definition sends (m : M W unit) (w : World W) (all : list Event) : Prop :=
  ∃ evs, trace (m w).2 = trace w ++ evs ∧
         evs `prefix_of` all ∧
         ((m w).1 = Return tt → evs = all) ∧
         (∀ c, (m w).1 ≠ Exit c).

(** A computation that requests no worktree deletion. *)
Definition no_deletion {A} (m : M W A) : Prop :=
  ∀ w, deletions (trace (m w).2) = deletions (trace w).

End Observations.

(** ** More of [utils/orchestration.ts]: reading tmux listings *)

Definition newline : ascii := "010"%char.

(** [s.split(sep)] for a separator of one character. *)
Fixpoint split_on (sep : ascii) (s : string) : list string :=
  match s with
  | EmptyString => [EmptyString]
  | String c rest =>
      if Ascii.eqb c sep then EmptyString :: split_on sep rest
      else match split_on sep rest with
           | [] => [String c EmptyString]
           | piece :: pieces => String c piece :: pieces
           end
  end.

(** [stdout.split('\n').filter(Boolean)] *)
Definition output_lines (stdout : string) : list string :=
  filter (λ line, line ≠ "") (split_on newline stdout).

(** [s.includes(needle)] *)
Fixpoint includes (needle s : string) : bool :=
  String.prefix needle s
  || match s with
     | EmptyString => false
     | String _ rest => includes needle rest
     end.

Inductive TmuxSessionStatus := StatusActive | StatusInactive | StatusNotFound.

Definition status_format : string := "#{session_name}:#{session_attached}".
Definition name_format : string := "#{session_name}".

Section Listings.

Context {W : Type} `{Runtime W}.

Definition getTmuxSessionStatus (sessionName : string) : M W TmuxSessionStatus :=
  try_catch
    (stdout ← call (Tmux ["list-sessions"; "-F"; status_format]);
     let sessions := output_lines stdout in
     match find (λ line, String.prefix (sessionName +:+ ":") line) sessions with
     | None => mret StatusNotFound
     | Some session =>
         let attached := split_on ":" session !! 1 in
         mret (if bool_decide (attached = Some "1") then StatusActive
               else StatusInactive)
     end)
    (λ _, mret StatusNotFound).

Definition getRunningOrchestraSessions (filter_ : option string)
    : M W (list string) :=
  try_catch
    (stdout ← call (Tmux ["list-sessions"; "-F"; name_format]);
     let sessions := output_lines stdout in
     if truthy filter_
     then mret (filter (λ line, includes (default "" filter_) line) sessions)
     else mret sessions)
    (λ _, mret []).

End Listings.

(** ** [createOrchestraSession] ([utils/orchestration.ts])

    [manager.getWorktreePath] belongs to the worktree manager of
    [core/git.ts]; it is taken as a parameter. *)

Section OrchestraSession.

Context {W : Type} `{Runtime W}.

Variable getWorktreePath : string → M W string.

Definition createOrchestraSession (feature : FeatureConfig) (skipWorktree : bool)
    : M W unit :=
  worktreePath ←
    (if negb skipWorktree
     then call (GitCreateWorktree (name feature)
                  (if truthy (base feature) then default "" (base feature)
                   else "main"))
     else getWorktreePath (name feature));
  for_each (sessions feature) (λ session,
    sessionName ← createTmuxSession (name feature) session worktreePath;
    if 0 <? length (prompts session)
    then injectPrompts sessionName (prompts session)
    else mret tt);;
  if truthy (claudeContext feature) || bool_decide (is_Some (agents feature))
  then customizeClaudeMd feature worktreePath Split
  else mret tt.

End OrchestraSession.

(** ** More of [schemas/maestro.ts] *)

(** The class [[a-zA-Z0-9-_]] of the feature name pattern. *)
Definition in_name_class (c : ascii) : bool :=
  in_class c || Ascii.eqb c "_".

Fixpoint all_chars (p : ascii → bool) (s : string) : bool :=
  match s with
  | EmptyString => true
  | String c rest => p c && all_chars p rest
  end.

(** [z.string().min(1, ...).regex(/^[a-zA-Z0-9-_]+$/, ...)] *)
Definition feature_name_valid (s : string) : bool :=
  (1 <=? String.length s) && all_chars in_name_class s.

(** ** A simulated tmux that also lists its sessions

    The simulated world of [Sim] with, for each session, the number of
    attached clients; [list-sessions] prints one line per session in the
    two formats the code asks for, and fails when there is no session. *)

Module Listing.

Record world := mkListing {
  sim : Sim.world;
  clients : list (string * nat);
}.

Definition attached (w : world) (n : string) : nat :=
  default 0 (map_get n (clients w)).

Definition line (fmt : string) (w : world) (n : string) : string :=
  if String.eqb fmt status_format
  then n +:+ ":" +:+ string_of_nat (attached w n)
  else n.

Definition respond (c : Call) (w : world) : (JsError + string) * world :=
  match c with
  | Tmux ["list-sessions"; _; fmt] =>
      match Sim.tmux_sessions (sim w) with
      | [] => (inl (mkError "no server running"), w)
      | ss => (inr (String.concat (String newline "")
                      (map (λ '(n, _), line fmt w n) ss)), w)
      end
  | _ => let (r, o) := Sim.respond c (sim w) in (r, mkListing o (clients w))
  end.

#[global] Instance runtime : Runtime world := {|
  answer := respond;
  env_SHELL := Some "/bin/zsh";
  now_toISOString := λ _, "2024-01-01T00:00:00.000Z";
  detectPackageManager := λ _ _, None;
  claudeMd_text := λ f _, name f;
  JSON_stringify := Sim.stringify;
  JSON_parse := Sim.parse;
|}.

Definition start (o : world) : World world := mkWorld o [].

End Listing.

(** ** More observations on traces *)

(** The branch that [createWorktree] asks for. *)
Definition branch_of (feature : FeatureConfig) : string :=
  if truthy (branch_prefix feature)
  then default "" (branch_prefix feature) +:+ name feature
  else name feature.

Definition create_request (baseBranch : string) (feature : FeatureConfig)
    : Event :=
  Called (GitCreateWorktree (branch_of feature) baseBranch).

Definition create_failure (feature : FeatureConfig) (e : JsError) : Event :=
  ConsoleError ("Failed to create worktree for " +:+ name feature) e.

Definition is_create (ev : Event) : bool :=
  match ev with
  | Called (GitCreateWorktree _ _) => true
  | _ => false
  end.

(** The worktree creations requested in a trace. *)
Definition creations (t : list Event) : list Event := filter is_create t.

(** Requests that touch the state document or its directory. *)
Definition is_state_write (ev : Event) : bool :=
  match ev with
  | Called (Mkdir _) => true
  | Called (WriteFile p _) => String.eqb p state_path
  | _ => false
  end.

Definition state_writes (t : list Event) : list Event := filter is_state_write t.

Definition run_tmux_commands : list string :=
  ["has-session"; "new-session"; "split-window"; "select-layout";
   "rename-window"; "send-keys"].

(** The events a run of the implement command is made of. *)
Definition run_event (ev : Event) : bool :=
  match ev with
  | Called (GitCreateWorktree _ b) => String.eqb b "main"
  | Called (Tmux (cmd :: _)) => bool_decide (cmd ∈ run_tmux_commands)
  | Called (Install _ _) => true
  | Called (Mkdir p) => String.eqb p ".maestro"
  | Called (WriteFile _ _) => true
  | Slept ms => ms =? 100
  | ConsoleWarn _ => true
  | ConsoleError _ _ => true
  | _ => false
  end.

(** The events of the phases of a run before the state is saved. *)
Definition phase_event (ev : Event) : bool :=
  run_event ev && negb (is_state_write ev).

(** [feature.base || 'main'] *)
Definition base_or_main (feature : FeatureConfig) : string :=
  if truthy (base feature) then default "" (base feature) else "main".

(** The tmux requests of the session builder on its creation path. *)
Definition creation_requests (shell_ : string) (id : string)
    (session : SessionConfig) (worktreePath : string) : list Event :=
  [Called (Tmux ["has-session"; "-t"; id]);
   Called (Tmux ["new-session"; "-d"; "-s"; id; "-c"; worktreePath; shell_; "-l"])]
  ++ map (λ i, Called (Tmux ["split-window"; "-t"; id; "-c"; worktreePath;
                             split_flag (layout session) i; shell_; "-l"]))
         (split_indices (panes session))
  ++ match layout session with
     | Some l => [Called (Tmux ["select-layout"; "-t"; id; layout_name l])]
     | None => []
     end
  ++ [Called (Tmux ["rename-window"; "-t"; id; sc_name session])].

(** A listing as tmux prints it for [status_format]. *)
Definition status_listing (ss : list (string * string)) : string :=
  String.concat (String newline "") (map (λ '(n, a), n +:+ ":" +:+ a) ss).

Definition names_listing (ns : list string) : string :=
  String.concat (String newline "") ns.

Definition free_of (c : ascii) (s : string) : Prop :=
  c ∉ list_ascii_of_string s.

(** An entry of a status listing: a session name and its attached field,
    both without colon and newline. *)
Definition listed (entry : string * string) : Prop :=
  free_of ":" entry.1 ∧ free_of newline entry.1 ∧
  free_of ":" entry.2 ∧ free_of newline entry.2.

(** What the status listing says about a session name. *)
Definition listed_status (name : string) (ss : list (string * string))
    : TmuxSessionStatus :=
  match find (λ '(n, _), bool_decide (n = name)) ss with
  | None => StatusNotFound
  | Some (_, a) => if bool_decide (a = "1") then StatusActive else StatusInactive
  end.

(** The replacement of underscores by dashes. *)
Fixpoint underscores_to_dashes (s : string) : string :=
  match s with
  | EmptyString => EmptyString
  | String c rest =>
      String (if Ascii.eqb c "_" then "-"%char else c) (underscores_to_dashes rest)
  end.

Section MoreObservations.

Context {W : Type} `{Runtime W}.

(** A computation all of whose events satisfy [P] and that does not end
    the process. *)
Definition tame {A} (P : Event → Prop) (m : M W A) : Prop :=
  ∀ w, (∃ evs, trace (m w).2 = trace w ++ evs ∧ Forall P evs) ∧
       (∀ c, (m w).1 ≠ Exit c).

(** The outside world after the requests among [evs] have been answered,
    one after the other, starting from [o]. *)
Fixpoint replay (o : W) (evs : list Event) : W :=
  match evs with
  | [] => o
  | Called c :: rest => replay (answer c o).2 rest
  | _ :: rest => replay o rest
  end.

(** The first request among [evs] that is rejected when they are answered
    one after the other from [o]: its position in [evs] and the error. *)
Fixpoint first_rejection (o : W) (evs : list Event) : option (nat * JsError) :=
  match evs with
  | [] => None
  | Called c :: rest =>
      match (answer c o).1 with
      | inl e => Some (0, e)
      | inr _ => prod_map S id <$> first_rejection (answer c o).2 rest
      end
  | _ :: rest => prod_map S id <$> first_rejection o rest
  end.

(** Doing the events of a list in order, every request awaited. *)
Fixpoint perform (evs : list Event) : M W unit :=
  match evs with
  | [] => mret tt
  | Called c :: rest => call c;; perform rest
  | ev :: rest => emit ev;; perform rest
  end.

(** A computation whose trace tells how the outside world changed. *)
Definition recorded {A} (m : M W A) : Prop :=
  ∀ w, ∃ evs, trace (m w).2 = trace w ++ evs ∧
              outside (m w).2 = replay (outside w) evs.

(** What the installation loop does for one worktree in the outside world
    [o]: nothing without a package manager, else the installation and, when
    it is rejected, the warning. *)
Definition install_step (o : W) (entry : string * string) : list Event :=
  let packageManager := detectPackageManager entry.2 o in
  if truthy packageManager then
    let c := Install (default "" packageManager) entry.2 in
    Called c ::
    match (answer c o).1 with
    | inl _ => [ConsoleWarn ("Failed to install deps for " +:+ entry.1)]
    | inr _ => []
    end
  else [].

Fixpoint install_events (o : W) (worktreePaths : list (string * string))
    : list Event :=
  match worktreePaths with
  | [] => []
  | entry :: rest =>
      install_step o entry ++ install_events (replay o (install_step o entry)) rest
  end.

End MoreObservations.

(** The events of setting up the sessions of a feature in a worktree: tmux
    requests of the builder and the injector, the settling delay, and the
    write of the worktree's CLAUDE.md. *)
Definition setup_event (worktreePath : string) (ev : Event) : bool :=
  match ev with
  | Called (Tmux (cmd :: _)) => bool_decide (cmd ∈ run_tmux_commands)
  | Called (WriteFile p _) => String.eqb p (path_join worktreePath "CLAUDE.md")
  | Slept ms => ms =? 100
  | _ => false
  end.

(** * Properties *)

(** ** The resolver *)

Section ResolverFacts.

Import Resolver.

Variable allFeatures : gmap string FeatureConfig.

Abbreviation declares := (declares allFeatures).
Abbreviation known := (known allFeatures).
Abbreviation visit := (visit allFeatures).
Abbreviation topo := (topo allFeatures).
Abbreviation marks_ok := (marks_ok allFeatures).
Abbreviation expanded := (expanded allFeatures).
Abbreviation pre := (pre allFeatures).
Abbreviation post := (post allFeatures).

Lemma declares_known a d : declares a d → known a.
Proof. intros (f & Hf & _). by exists f. Qed.

Lemma tc_declares_known a b : tc declares a b → known a.
Proof. destruct 1 as [? ? H|? ? ? H _]; exact (declares_known _ _ H). Qed.

Lemma topo_known l : topo l → ∀ a, a ∈ l → known a.
Proof.
  induction 1 as [|l a f _ IH _ Hf _]; intros b Hb.
  - by apply elem_of_nil in Hb.
  - apply elem_of_app in Hb as [Hb|Hb]; [by apply IH|].
    apply list_elem_of_singleton in Hb as ->. by exists f.
Qed.

Lemma topo_NoDup l : topo l → NoDup l.
Proof.
  induction 1 as [|l a f _ IH Ha _ _]; [constructor|].
  apply NoDup_app. split_and!; [done| |apply NoDup_singleton].
  intros x Hx ->%list_elem_of_singleton. done.
Qed.

(** A topological post-order is closed under existing dependencies. *)
Lemma topo_closed l :
  topo l → ∀ a d, a ∈ l → declares a d → known d → d ∈ l.
Proof.
  induction 1 as [|l a f _ IH _ Hf Hdeps]; intros b d Hb Hbd Hd.
  - by apply elem_of_nil in Hb.
  - apply elem_of_app. left.
    apply elem_of_app in Hb as [Hb|Hb]; [by eapply IH|].
    apply list_elem_of_singleton in Hb as ->.
    destruct Hbd as (f' & Hf' & Hin). simplify_eq. by apply Hdeps.
Qed.

Lemma topo_closed_rtc l :
  topo l → ∀ a b, rtc declares a b → a ∈ l → known b → b ∈ l.
Proof.
  intros Ht a b Hab. induction Hab as [a|a c b Hac Hcb IH]; [done|].
  intros Ha Hb. apply IH; [|done].
  eapply topo_closed; [done..|].
  inversion Hcb as [|? c' ? Hcc' _]; subst; [done|].
  by eapply declares_known.
Qed.

(** No cycle runs through a topological post-order. *)
Lemma topo_no_cycle l : topo l → ∀ a, a ∈ l → ¬ tc declares a a.
Proof.
  induction 1 as [|l a f Hl IH Ha Hf Hdeps]; intros b Hb Hcyc.
  - by apply elem_of_nil in Hb.
  - apply elem_of_app in Hb as [Hb|Hb]; [by eapply IH|].
    apply list_elem_of_singleton in Hb as ->.
    apply Ha.
    assert (∃ d, declares a d ∧ rtc declares d a) as (d & Had & Hda).
    { inversion Hcyc as [|? d ? Had Hda]; subst.
      - by exists a.
      - exists d. split; [done|]. by apply tc_rtc. }
    assert (known d) as Hd.
    { inversion Hda as [|? c ? Hdc _]; subst; [by exists f|].
      by eapply declares_known. }
    destruct Had as (f' & Hf' & Hin). simplify_eq.
    eapply (topo_closed_rtc l Hl d a); [done| |by eexists].
    by apply Hdeps.
Qed.

Lemma expanded_nil m : marks_ok m → expanded [] m m.
Proof.
  intros Hm. split; [done..| |].
  - exists []. split; [by rewrite app_nil_r|]. by intros y ?%elem_of_nil.
  - by intros x ?%elem_of_nil.
Qed.

Lemma expanded_cons x xs m m1 m2 :
  expanded [x] m m1 → expanded xs m1 m2 → expanded (x :: xs) m m2.
Proof.
  intros [_ Hip1 (new1 & Ho1 & Hn1) Hall1] [Hok2 Hip2 (new2 & Ho2 & Hn2) Hall2].
  split; [done|congruence| |].
  - exists (new1 ++ new2). split; [by rewrite Ho2, Ho1, app_assoc|].
    intros y [Hy|Hy]%elem_of_app.
    + destruct (Hn1 y Hy) as (x' & ->%list_elem_of_singleton & Hr).
      exists x. split; [left|done].
    + destruct (Hn2 y Hy) as (x' & Hx' & Hr).
      exists x'. split; [by right|done].
  - intros x' Hx' Hk. apply elem_of_cons in Hx' as [->|Hx']; [|by apply Hall2].
    rewrite Ho2. apply elem_of_app. left. apply Hall1; [left|done].
Qed.

Lemma visit_all_post (v : string → marks → outcome marks) fuel :
  (∀ x m, pre fuel [x] m → post [x] m (v x m)) →
  ∀ xs m, pre fuel xs m → post xs m (visit_all v xs m).
Proof.
  intros Hv xs. induction xs as [|x xs IH]; intros m (Hm & Hreach & Hfuel); simpl.
  - by apply expanded_nil.
  - assert (pre fuel [x] m) as Hx.
    { split_and!; [done| |done].
      intros v' x' Hv' ->%list_elem_of_singleton. apply Hreach; [done|left]. }
    specialize (Hv x m Hx). destruct (v x m) as [m1| |]; [|done..].
    simpl in Hv. assert (pre fuel xs m1) as Hxs.
    { destruct Hv as [Hok1 Hip1 _ _]. split_and!; [done| |by rewrite Hip1].
      intros v' x'. rewrite Hip1. intros ??. apply Hreach; [done|by right]. }
    specialize (IH m1 Hxs). destruct (visit_all v xs m1) as [m2| |]; [|done..].
    simpl in *. by eapply expanded_cons.
Qed.

Lemma in_progress_bound m :
  marks_ok m → size (in_progress m) ≤ size allFeatures.
Proof.
  intros [Hsub _ _ _]. rewrite <-size_dom. by apply subseteq_size.
Qed.

Lemma visit_post fuel : ∀ x m, pre fuel [x] m → post [x] m (visit fuel x m).
Proof.
  induction fuel as [|fuel IH]; intros x m (Hm & Hreach & Hfuel).
  - simpl. pose proof (in_progress_bound m Hm). lia.
  - simpl. destruct (decide (x ∈ is_done m)) as [Hdone|Hdone].
    { simpl. split; [done..| |].
      - exists []. split; [by rewrite app_nil_r|]. by intros y ?%elem_of_nil.
      - intros x' ->%list_elem_of_singleton _.
        destruct Hm as [_ Hd _ _]. rewrite Hd in Hdone.
        by apply elem_of_list_to_set in Hdone. }
    destruct (decide (x ∈ in_progress m)) as [Hip|Hip].
    { simpl. exists x. apply Hreach; [done|left]. }
    destruct (allFeatures !! x) as [f|] eqn:Hf.
    2:{ simpl. split; [done..| |].
        - exists []. split; [by rewrite app_nil_r|]. by intros y ?%elem_of_nil.
        - intros x' ->%list_elem_of_singleton [? Hk]. congruence. }
    assert (pre fuel (dependencies f) (enter x m)) as Hpre.
    { destruct Hm as [Hsub Hd Hdisj Ht]. split_and!.
      - split; simpl; [|done| |done].
        + apply union_subseteq. split; [|done].
          apply singleton_subseteq_l, elem_of_dom. by exists f.
        + set_solver.
      - simpl. intros v d [->%elem_of_singleton|Hv]%elem_of_union Hdep.
        + apply tc_once. by exists f.
        + eapply tc_r; [apply Hreach; [done|left]|]. by exists f.
      - simpl. rewrite size_union by set_solver. rewrite size_singleton. lia. }
    pose proof (visit_all_post (visit fuel) fuel IH _ _ Hpre) as Hpost.
    destruct (visit_all (visit fuel) (dependencies f) (enter x m)) as [m'| |];
      [|done..].
    simpl in *. destruct Hpost as [[Hsub Hd Hdisj Ht] Hip' (new & Ho & Hn) Hall].
    simpl in *. split; simpl.
    + split; simpl.
      * set_solver.
      * rewrite list_to_set_app_L, Hd. set_solver.
      * set_solver.
      * eapply topo_snoc; [done| |done|done].
        intros Hx. apply (Hdisj x); [rewrite Hip'; set_solver|].
        rewrite Hd. by apply elem_of_list_to_set.
    + rewrite Hip'. set_solver.
    + exists (new ++ [x]). split; [by rewrite Ho, app_assoc|].
      intros y [Hy | ->%list_elem_of_singleton]%elem_of_app.
      * destruct (Hn y Hy) as (d & Hdep & Hr). exists x. split; [left|].
        eapply rtc_l; [|done]. by exists f.
      * exists x. split; [left|done].
    + intros x' ->%list_elem_of_singleton _. set_solver.
Qed.

Lemma resolve_post requested :
  post requested no_marks
    (visit_all (visit (S (size allFeatures))) requested no_marks).
Proof.
  apply (visit_all_post _ (S (size allFeatures))); [apply visit_post|].
  split_and!.
  - split; simpl; [set_solver..|constructor].
  - simpl. intros v x Hv. set_solver.
  - change (in_progress no_marks) with (∅ : gset string).
    rewrite size_empty. lia.
Qed.

(** The fuel of [resolve] is never used up. *)
Lemma resolve_total requested : resolve allFeatures requested ≠ OutOfFuel.
Proof.
  unfold resolve. pose proof (resolve_post requested) as H.
  by destruct (visit_all _ _ _).
Qed.

Lemma topo_before l :
  topo l → ∀ i a d, l !! i = Some a → declares a d → known d →
  ∃ j, j < i ∧ l !! j = Some d.
Proof.
  induction 1 as [|l a f _ IH _ Hf Hdeps]; intros i b d Hi Hbd Hd; [done|].
  destruct (decide (i < length l)) as [Hlt|Hge].
  - rewrite lookup_app_l in Hi by done.
    destruct (IH i b d Hi Hbd Hd) as (j & Hj & Hjd).
    exists j. split; [done|]. rewrite lookup_app_l; [done|lia].
  - rewrite lookup_app_r in Hi by lia.
    apply list_lookup_singleton_Some in Hi as [Hi ->].
    destruct Hbd as (f' & Hf' & Hin). simplify_eq.
    apply Hdeps in Hin; [|done].
    apply list_elem_of_lookup in Hin as [j Hj].
    pose proof (lookup_lt_Some _ _ _ Hj).
    exists j. split; [lia|]. by rewrite lookup_app_l.
Qed.

Lemma rtc_declares_known a b : rtc declares a b → known b → known a.
Proof.
  destruct 1 as [|? c ? Hac _]; [done|]. intros _. by eapply declares_known.
Qed.

(** What a successful resolution returns. *)
Lemma resolve_resolved requested out :
  resolve allFeatures requested = Resolved out →
  topo out ∧ (∀ x, x ∈ out ↔ in_closure allFeatures requested x).
Proof.
  unfold resolve. pose proof (resolve_post requested) as H.
  destruct (visit_all _ _ _) as [m| |]; [|done..].
  intros [= <-]. destruct H as [[_ _ _ Ht] _ (new & Ho & Hn) Hall].
  simpl in Ho. split; [done|]. intros x. split.
  - intros Hx. split; [by eapply topo_known|].
    rewrite Ho in Hx. by apply Hn.
  - intros (Hx & r & Hr & Hrx).
    eapply topo_closed_rtc; [done..| |done].
    apply Hall; [done|]. by eapply rtc_declares_known.
Qed.

(** A graph on which every feature resolves has no cycle. *)
Lemma resolved_acyclic out :
  resolve allFeatures (elements (dom allFeatures)) = Resolved out →
  acyclic allFeatures.
Proof.
  intros [Ht Hin]%resolve_resolved a Hcyc.
  eapply topo_no_cycle; [done| |done].
  apply Hin. pose proof (tc_declares_known _ _ Hcyc) as Ha.
  split; [done|]. exists a. split; [|done].
  by apply elem_of_elements, elem_of_dom.
Qed.

Lemma resolve_acyclic requested :
  acyclic allFeatures → ∃ out, resolve allFeatures requested = Resolved out.
Proof.
  intros Hac. unfold resolve. pose proof (resolve_post requested) as H.
  destruct (visit_all _ _ _) as [m|e|]; [by eexists| |done].
  destruct H as [a Ha]. by destruct (Hac a).
Qed.

Lemma resolve_cyclic requested :
  reachable_cycle allFeatures requested →
  ∃ n, resolve allFeatures requested = Raised (CircularDependencyError n).
Proof.
  intros (r & a & Hr & Hra & Hcyc).
  destruct (resolve allFeatures requested) as [out|[n]|] eqn:Hres.
  - exfalso. apply resolve_resolved in Hres as [Ht Hin].
    eapply topo_no_cycle; [done| |done].
    apply Hin. split; [by eapply tc_declares_known|]. by exists r.
  - by exists n.
  - by destruct (resolve_total requested).
Qed.

End ResolverFacts.

(** C2. On an acyclic dependency graph the resolver returns an order that
    holds exactly the existing features of the transitive dependency
    closure of the requested names, each once, and in which every existing
    dependency of a feature stands strictly before that feature; and for
    auth, api (on auth) and ui (on auth and api), resolving ui gives auth,
    api, ui. *)
Theorem resolve_dependency_first :
  (∀ (allFeatures : gmap string FeatureConfig) (requested : list string),
     Resolver.acyclic allFeatures →
     ∃ out, Resolver.resolve allFeatures requested = Resolver.Resolved out ∧
       NoDup out ∧
       (∀ x, x ∈ out ↔ Resolver.in_closure allFeatures requested x) ∧
       (∀ i a d, out !! i = Some a → Resolver.declares allFeatures a d →
          Resolver.known allFeatures d → ∃ j, j < i ∧ out !! j = Some d)) ∧
  Resolver.resolve Resolver.configWithDeps ["ui"]
    = Resolver.Resolved ["auth"; "api"; "ui"].
Proof.
  split; [|by vm_compute].
  intros allFeatures requested Hac.
  destruct (resolve_acyclic allFeatures requested Hac) as [out Hout].
  destruct (resolve_resolved allFeatures requested out Hout) as [Ht Hin].
  exists out. split_and!; [done| |done|].
  - by eapply topo_NoDup.
  - by apply topo_before.
Qed.

Lemma resolve_dependency_first_witness :
  Resolver.acyclic Resolver.configWithDeps ∧
  ∃ out, Resolver.resolve Resolver.configWithDeps ["api"] = Resolver.Resolved out ∧
    NoDup out ∧
    (∀ x, x ∈ out ↔ Resolver.in_closure Resolver.configWithDeps ["api"] x) ∧
    (∀ i a d, out !! i = Some a →
       Resolver.declares Resolver.configWithDeps a d →
       Resolver.known Resolver.configWithDeps d → ∃ j, j < i ∧ out !! j = Some d).
Proof.
  assert (Resolver.acyclic Resolver.configWithDeps) as Hac.
  { apply (resolved_acyclic _ ["auth"; "api"; "ui"]). vm_compute. reflexivity. }
  split; [exact Hac|].
  exact (proj1 resolve_dependency_first Resolver.configWithDeps ["api"] Hac).
Defined.

(** C3. On a graph with a cycle that the requested names reach, the
    resolver raises CircularDependencyError; a feature that lists its own
    name is such a cycle.  The resolver is a function from its two
    arguments to its outcome, so nothing else is changed by it. *)
Theorem resolve_cycle_raises :
  (∀ (allFeatures : gmap string FeatureConfig) (requested : list string),
     Resolver.reachable_cycle allFeatures requested →
     ∃ n, Resolver.resolve allFeatures requested
          = Resolver.Raised (Resolver.CircularDependencyError n)) ∧
  (∀ (allFeatures : gmap string FeatureConfig) (requested : list string) n f,
     allFeatures !! n = Some f → n ∈ dependencies f → n ∈ requested →
     ∃ n', Resolver.resolve allFeatures requested
           = Resolver.Raised (Resolver.CircularDependencyError n')).
Proof.
  split.
  - intros allFeatures requested. apply resolve_cyclic.
  - intros allFeatures requested n f Hf Hself Hreq.
    apply resolve_cyclic. exists n, n. split_and!; [done..|].
    apply tc_once. by exists f.
Qed.

Lemma resolve_cycle_raises_witness :
  Resolver.reachable_cycle Resolver.circularConfig ["a"] ∧
  (∃ n, Resolver.resolve Resolver.circularConfig ["a"]
        = Resolver.Raised (Resolver.CircularDependencyError n)) ∧
  (∃ n, Resolver.resolve Resolver.selfRefConfig ["self"]
        = Resolver.Raised (Resolver.CircularDependencyError n)).
Proof.
  assert (Resolver.reachable_cycle Resolver.circularConfig ["a"]) as Hcyc.
  { exists "a", "a". split_and!; [by left|done|].
    eapply tc_l; [by eexists; split; [by vm_compute|]; left|].
    eapply tc_l; [by eexists; split; [by vm_compute|]; left|].
    apply tc_once. by eexists; split; [by vm_compute|]; left. }
  split_and!; [exact Hcyc| |].
  - exact (proj1 resolve_cycle_raises Resolver.circularConfig ["a"] Hcyc).
  - refine (proj2 resolve_cycle_raises Resolver.selfRefConfig ["self"] "self"
              (Resolver.plain_feature "self" ["self"]) _ _ _).
    + by vm_compute.
    + simpl. left.
    + left.
Defined.

(** ** Running the monad *)

Section MonadFacts.

Context {W : Type} `{Runtime W}.

Lemma run_bind {A B} (m : M W A) (k : A → M W B) w :
  (m ≫= k) w =
  match m w with
  | (Return a, w') => k a w'
  | (Throw e, w') => (Throw e, w')
  | (Exit c, w') => (Exit c, w')
  end.
Proof. reflexivity. Qed.

Lemma run_ret {A} (a : A) (w : World W) : (mret a : M W A) w = (Return a, w).
Proof. reflexivity. Qed.

Lemma run_call c (w : World W) :
  call c w =
  (match (answer c (outside w)).1 with inl e => Throw e | inr v => Return v end,
   mkWorld (answer c (outside w)).2 (trace w ++ [Called c])).
Proof. unfold call. by destruct (answer c (outside w)) as [[e|v] o]. Qed.

Lemma run_call_ok c (w : World W) v o :
  answer c (outside w) = (inr v, o) →
  call c w = (Return v, mkWorld o (trace w ++ [Called c])).
Proof. intros Ha. unfold call. by rewrite Ha. Qed.

Lemma run_call_rejected c (w : World W) e o :
  answer c (outside w) = (inl e, o) →
  call c w = (Throw e, mkWorld o (trace w ++ [Called c])).
Proof. intros Ha. unfold call. by rewrite Ha. Qed.

(** A call that returned was answered. *)
Lemma call_returned c (w w' : World W) v :
  call c w = (Return v, w') →
  answer c (outside w) = (inr v, outside w') ∧ trace w' = trace w ++ [Called c].
Proof.
  unfold call. destruct (answer c (outside w)) as [[e|v'] o]; [done|].
  by intros [= -> <-].
Qed.

Lemma bind_returned {A B} (m : M W A) (k : A → M W B) w b w' :
  (m ≫= k) w = (Return b, w') →
  ∃ a w1, m w = (Return a, w1) ∧ k a w1 = (Return b, w').
Proof.
  rewrite run_bind. destruct (m w) as [[a|e|c] w1]; [|done..].
  intros Hk. by exists a, w1.
Qed.

(** The trace of a loop of calls that ran to its end. *)
Lemma for_each_calls {A} (xs : list A) (c : A → Call) (w w' : World W) :
  for_each xs (λ i, call (c i);; mret tt) w = (Return tt, w') →
  trace w' = trace w ++ map (λ i, Called (c i)) xs.
Proof.
  revert w. induction xs as [|x xs IH]; intros w; simpl.
  - intros [= <-]. by rewrite app_nil_r.
  - intros (u & w1 & Hbody & Hrest)%bind_returned.
    apply bind_returned in Hbody as (v & w2 & [_ Hc]%call_returned & Hret).
    assert (w1 = w2) as -> by (by injection Hret).
    apply IH in Hrest. by rewrite Hrest, Hc, <-app_assoc.
Qed.

End MonadFacts.

(** ** Traces and the outside world *)

Section RecordedFacts.

Context {W : Type} `{Runtime W}.

Lemma replay_app (o : W) evs1 evs2 :
  replay o (evs1 ++ evs2) = replay (replay o evs1) evs2.
Proof.
  revert o. induction evs1 as [|[c| | |] evs1 IH]; intros o; simpl; by rewrite ?IH.
Qed.

Lemma recorded_run {A} (m : M W A) (w w' : World W) r :
  recorded m → m w = (r, w') →
  ∃ evs, trace w' = trace w ++ evs ∧ outside w' = replay (outside w) evs.
Proof. intros Hm Hrun. specialize (Hm w). by rewrite Hrun in Hm. Qed.

Lemma recorded_ret {A} (a : A) : recorded (mret a : M W A).
Proof. intros w. exists []. simpl. by rewrite app_nil_r. Qed.

Lemma recorded_throw {A} e : recorded (throw e : M W A).
Proof. intros w. exists []. simpl. by rewrite app_nil_r. Qed.

Lemma recorded_read {A} (f : W → A) : recorded (read f).
Proof. intros w. exists []. simpl. by rewrite app_nil_r. Qed.

Lemma recorded_emit ev :
  (∀ c, ev ≠ Called c) → recorded (emit (W := W) ev).
Proof.
  intros Hev w. exists [ev]. simpl. split; [done|].
  destruct ev as [c| | |]; [by destruct (Hev c)|done..].
Qed.

Lemma recorded_call c : recorded (call (W := W) c).
Proof. intros w. rewrite run_call. by exists [Called c]. Qed.

Lemma recorded_bind {A B} (m : M W A) (k : A → M W B) :
  recorded m → (∀ a, recorded (k a)) → recorded (m ≫= k).
Proof.
  intros Hm Hk w. rewrite run_bind.
  destruct (Hm w) as (evs & Ht & Ho).
  destruct (m w) as [[a|e|c] w1]; simpl in *; [|by exists evs..].
  destruct (Hk a w1) as (evs' & Ht' & Ho').
  exists (evs ++ evs'). by rewrite Ht', Ht, Ho', Ho, app_assoc, replay_app.
Qed.

Lemma recorded_try_catch {A} (m : M W A) (h : JsError → M W A) :
  recorded m → (∀ e, recorded (h e)) → recorded (try_catch m h).
Proof.
  intros Hm Hh w. unfold try_catch.
  destruct (Hm w) as (evs & Ht & Ho).
  destruct (m w) as [[a|e|c] w1]; simpl in *; [by exists evs| |by exists evs].
  destruct (Hh e w1) as (evs' & Ht' & Ho').
  exists (evs ++ evs'). by rewrite Ht', Ht, Ho', Ho, app_assoc, replay_app.
Qed.

Lemma recorded_for_each {A} (xs : list A) (body : A → M W unit) :
  (∀ x, recorded (body x)) → recorded (for_each xs body).
Proof.
  intros Hbody. induction xs as [|x xs IH]; [apply recorded_ret|].
  simpl. by apply recorded_bind.
Qed.

Lemma recorded_for_fold {A S} (xs : list A) (body : A → S → M W S) s :
  (∀ x s', recorded (body x s')) → recorded (for_fold xs body s).
Proof.
  intros Hbody. revert s. induction xs as [|x xs IH]; intros s;
    [apply recorded_ret|].
  simpl. by apply recorded_bind.
Qed.

(** A loop that ran to its end ran its body for every element, in a world
    reached from the start by the events before it. *)
Lemma for_fold_visit {A S} (xs : list A) (body : A → S → M W S) :
  (∀ x s, recorded (body x s)) →
  ∀ s (w w' : World W) r x,
    for_fold xs body s w = (Return r, w') → x ∈ xs →
    ∃ s1 w1 s2 w2 pre post,
      body x s1 w1 = (Return s2, w2) ∧
      trace w1 = trace w ++ pre ∧ outside w1 = replay (outside w) pre ∧
      trace w' = trace w2 ++ post.
Proof.
  intros Hbody. induction xs as [|x0 xs IH]; intros s w w' r x;
    [by intros _ ?%elem_of_nil|].
  simpl. intros (s' & wa & Hx0 & Hrest)%bind_returned [->|Hx]%elem_of_cons.
  - destruct (recorded_run _ _ _ _ (recorded_for_fold xs body s' Hbody) Hrest)
      as (post & Ht & _).
    exists s, w, s', wa, [], post. by rewrite app_nil_r.
  - destruct (recorded_run _ _ _ _ (Hbody x0 s) Hx0) as (evs0 & Ht0 & Ho0).
    destruct (IH _ _ _ _ _ Hrest Hx)
      as (s1 & w1 & s2 & w2 & pre & post & Hrun & Ht1 & Ho1 & Ht2).
    exists s1, w1, s2, w2, (evs0 ++ pre), post.
    by rewrite Ht1, Ht0, Ho1, Ho0, app_assoc, replay_app.
Qed.

Lemma for_each_visit {A} (xs : list A) (body : A → M W unit) :
  (∀ x, recorded (body x)) →
  ∀ (w w' : World W) x,
    for_each xs body w = (Return tt, w') → x ∈ xs →
    ∃ w1 w2 pre post,
      body x w1 = (Return tt, w2) ∧
      trace w1 = trace w ++ pre ∧ outside w1 = replay (outside w) pre ∧
      trace w' = trace w2 ++ post.
Proof.
  intros Hbody. induction xs as [|x0 xs IH]; intros w w' x;
    [by intros _ ?%elem_of_nil|].
  simpl. intros ([] & wa & Hx0 & Hrest)%bind_returned [->|Hx]%elem_of_cons.
  - destruct (recorded_run _ _ _ _ (recorded_for_each xs body Hbody) Hrest)
      as (post & Ht & _).
    exists w, wa, [], post. by rewrite app_nil_r.
  - destruct (recorded_run _ _ _ _ (Hbody x0) Hx0) as (evs0 & Ht0 & Ho0).
    destruct (IH _ _ _ Hrest Hx) as (w1 & w2 & pre & post & Hrun & Ht1 & Ho1 & Ht2).
    exists w1, w2, (evs0 ++ pre), post.
    by rewrite Ht1, Ht0, Ho1, Ho0, app_assoc, replay_app.
Qed.

End RecordedFacts.

Create HintDb recorded.

#[local] Hint Resolve recorded_ret recorded_throw recorded_read recorded_call
  recorded_bind recorded_try_catch recorded_for_each recorded_for_fold
  : recorded.
#[local] Hint Extern 1 (recorded (emit _)) =>
  apply recorded_emit; discriminate : recorded.
#[local] Hint Extern 2 (recorded (if ?b then _ else _)) =>
  destruct b : recorded.
#[local] Hint Extern 2 (recorded (match ?x with _ => _ end)) =>
  destruct x : recorded.
#[local] Hint Extern 3 (recorded (_ ≫= _)) =>
  apply recorded_bind; [|intros ?] : recorded.

Ltac recorded := intros; eauto 20 with recorded.

Section RecordedRuns.

Context {W : Type} `{Runtime W}.

Lemma createTmuxSession_recorded feature session worktreePath :
  recorded (createTmuxSession (W := W) feature session worktreePath).
Proof.
  unfold createTmuxSession.
  apply recorded_bind; [recorded|]. intros [|]; [recorded|].
  apply recorded_bind; [recorded|]. intros _.
  apply recorded_bind; [apply recorded_for_each; recorded|]. intros _.
  apply recorded_bind; [destruct (layout session); recorded|]. intros _.
  recorded.
Qed.

Lemma injectPrompts_recorded sessionName prompts :
  recorded (injectPrompts (W := W) sessionName prompts).
Proof.
  unfold injectPrompts. apply recorded_for_each. intros [i p].
  destruct (String.eqb p ""); recorded.
Qed.

Lemma customizeClaudeMd_recorded feature worktreePath mode :
  recorded (customizeClaudeMd (W := W) feature worktreePath mode).
Proof. unfold customizeClaudeMd. destruct mode; recorded. Qed.

Lemma createWorktrees_recorded features baseBranch parallel :
  recorded (createWorktrees (W := W) features baseBranch parallel).
Proof.
  unfold createWorktrees. destruct parallel.
  - unfold promise_all. apply recorded_bind.
    + apply recorded_for_fold. intros feature started.
      unfold createWorktree_start, pending. recorded.
    + intros started. apply recorded_for_fold. intros [feature [e|p]] paths;
        unfold createWorktree_resume; recorded.
  - apply recorded_for_fold. intros feature paths. unfold createWorktree.
    recorded.
Qed.

Lemma installDependencies_recorded worktreePaths :
  recorded (installDependencies (W := W) worktreePaths).
Proof.
  unfold installDependencies. apply recorded_for_each. intros [f p].
  apply recorded_bind; [recorded|]. intros pm.
  destruct (truthy pm); recorded.
Qed.

(** The body of the session loop of the implement command. *)
Lemma session_step_recorded feature worktreePath session (acc : list string) :
  recorded (sessionName ← createTmuxSession (W := W) (name feature) session
                             worktreePath;
            injectPrompts sessionName (prompts session);;
            mret (acc ++ [sessionName])).
Proof.
  apply recorded_bind; [apply createTmuxSession_recorded|]. intros sessionName.
  apply recorded_bind; [apply injectPrompts_recorded|]. recorded.
Qed.

Lemma buildSessions_recorded ordered worktreePaths :
  recorded (buildSessions (W := W) ordered worktreePaths).
Proof.
  unfold buildSessions. apply recorded_for_fold. intros feature sessionMap.
  destruct (truthy _); [|recorded].
  apply recorded_bind.
  { apply recorded_for_fold. intros. apply session_step_recorded. }
  intros featureSessions. apply recorded_bind; [|recorded].
  destruct (_ || _); [apply customizeClaudeMd_recorded|recorded].
Qed.

End RecordedRuns.

(** ** The session builder *)

Lemma split_flag_parity i : (i mod 2 =? 0) = Nat.even i.
Proof.
  rewrite <-Nat.bit0_mod, Nat.bit0_odd, <-Nat.negb_odd.
  by destruct (Nat.odd i).
Qed.

Section BuilderFacts.

Context {W : Type} `{Runtime W}.

Lemma createTmuxSession_existing feature session worktreePath (w : World W) v o :
  answer (has_session_call (getSessionName feature (sc_name session))) (outside w)
    = (inr v, o) →
  createTmuxSession feature session worktreePath w =
    (Return (getSessionName feature (sc_name session)),
     mkWorld o (trace w
       ++ [Called (has_session_call (getSessionName feature (sc_name session)))])).
Proof.
  intros Ha. unfold createTmuxSession. rewrite run_bind.
  unfold has_session_call in *. unfold try_catch. rewrite run_bind, (run_call_ok _ _ _ _ Ha). reflexivity.
Qed.

Lemma splits_app t1 t2 : splits (t1 ++ t2) = splits t1 ++ splits t2.
Proof. apply filter_app. Qed.

Lemma splits_snoc t ev : is_split ev = false → splits (t ++ [ev]) = splits t.
Proof.
  intros Hev. rewrite splits_app. unfold splits at 2.
  rewrite filter_cons_False by (rewrite Hev; intros []). apply app_nil_r.
Qed.

Lemma splits_split_calls id p l (xs : list nat) :
  splits (map (λ i, Called (split_call id p l i)) xs)
  = map (λ i, Called (split_call id p l i)) xs.
Proof.
  induction xs as [|x xs IH]; [done|]. simpl. unfold splits in *.
  rewrite filter_cons_True by done. by rewrite IH.
Qed.

Lemma split_indices_integer (p : Q) (n : nat) :
  (p == inject_Z (Z.of_nat n))%Q → split_indices p = seq 1 (n - 1).
Proof.
  intros Hp. unfold split_indices. rewrite Hp, Qceiling_Z. f_equal. lia.
Qed.

(** [split_indices] lists the values the loop counter takes. *)
Lemma split_indices_spec (p : Q) (i : nat) :
  i ∈ split_indices p ↔ 1 ≤ i ∧ (inject_Z (Z.of_nat i) < p)%Q.
Proof.
  unfold split_indices. rewrite elem_of_seq.
  pose proof (Qle_ceiling p) as Hle. pose proof (Qceiling_lt p) as Hlt.
  split.
  - intros [H1 H2]. split; [done|].
    eapply Qle_lt_trans; [|exact Hlt].
    rewrite <-Zle_Qle. lia.
  - intros [H1 H2]. split; [done|].
    assert (Z.of_nat i < Qceiling p)%Z; [|lia].
    rewrite Zlt_Qlt. eapply Qlt_le_trans; [exact H2|exact Hle].
Qed.

Lemma createTmuxSession_created feature session worktreePath (w w' : World W)
    id e o :
  answer (has_session_call (getSessionName feature (sc_name session))) (outside w)
    = (inl e, o) →
  createTmuxSession feature session worktreePath w = (Return id, w') →
  id = getSessionName feature (sc_name session) ∧
  splits (trace w') =
    splits (trace w)
    ++ map (λ i, Called (split_call id worktreePath (layout session) i))
           (split_indices (panes session)).
Proof.
  intros Ha. unfold has_session_call in *. unfold createTmuxSession.
  rewrite run_bind.
  unfold try_catch at 1. rewrite run_bind, (run_call_rejected _ _ _ _ Ha).
  rewrite run_ret.
  intros (v1 & w1 & [_ Hnew]%call_returned & Hrun)%bind_returned.
  apply bind_returned in Hrun as ([] & w2 & Hloop & Hrun).
  apply (for_each_calls _ (split_call _ worktreePath (layout session))) in Hloop.
  apply bind_returned in Hrun as (u3 & w3 & Hlayout & Hrun).
  apply bind_returned in Hrun as (v4 & w4 & [_ Hren]%call_returned & Hret).
  injection Hret as <- <-. split; [done|].
  assert (splits (trace w3) = splits (trace w2)) as Hl.
  { destruct (layout session) as [l|].
    - apply bind_returned in Hlayout as (v & w5 & [_ Hsel]%call_returned & Hret).
      assert (w5 = w3) as -> by (by injection Hret).
      by rewrite Hsel, splits_snoc.
    - by assert (w2 = w3) as -> by (by injection Hlayout). }
  rewrite Hren, splits_snoc by done.
  rewrite Hl, Hloop, splits_app, splits_split_calls, Hnew. simpl.
  by rewrite !splits_snoc.
Qed.

Lemma createTmuxSession_returns feature session worktreePath (w w' : World W) id :
  createTmuxSession feature session worktreePath w = (Return id, w') →
  id = getSessionName feature (sc_name session).
Proof.
  destruct (answer (has_session_call (getSessionName feature (sc_name session)))
              (outside w)) as [[e|v] o] eqn:Ha.
  - intros Hrun. by destruct (createTmuxSession_created _ _ _ _ _ _ _ _ Ha Hrun).
  - rewrite (createTmuxSession_existing _ _ _ _ _ _ Ha). by intros [= <- _].
Qed.

End BuilderFacts.

(** C5. When tmux answers that a session with the derived id exists, the
    builder returns that id, and the has-session check is its only request:
    no session and no pane is created and nothing is thrown.  So a second
    call, made when the session of the first one exists, returns the same
    id and adds no pane split. *)
Theorem createTmuxSession_idempotent :
  (∀ (W : Type) (R : Runtime W) feature session worktreePath (w : World W) v o,
     answer (Tmux ["has-session"; "-t"; getSessionName feature (sc_name session)])
            (outside w) = (inr v, o) →
     createTmuxSession feature session worktreePath w =
       (Return (getSessionName feature (sc_name session)),
        mkWorld o (trace w ++
          [Called (Tmux ["has-session"; "-t";
                         getSessionName feature (sc_name session)])]))) ∧
  (∀ (W : Type) (R : Runtime W) feature session worktreePath (w w1 : World W)
     id v o,
     createTmuxSession feature session worktreePath w = (Return id, w1) →
     answer (Tmux ["has-session"; "-t"; id]) (outside w1) = (inr v, o) →
     ∃ w2, createTmuxSession feature session worktreePath w1 = (Return id, w2) ∧
           outside w2 = o ∧ splits (trace w2) = splits (trace w1)).
Proof.
  split.
  - intros W R feature session worktreePath w v o Ha.
    exact (createTmuxSession_existing _ _ _ _ v o Ha).
  - intros W R feature session worktreePath w w1 id v o Hfirst Ha.
    apply createTmuxSession_returns in Hfirst as ->.
    eexists. split; [exact (createTmuxSession_existing _ _ _ _ v o Ha)|].
    split; [done|]. simpl. by rewrite splits_snoc.
Qed.

Lemma createTmuxSession_idempotent_witness :
  let w1 := (createTmuxSession "auth" Sim.dev3 "/wt" (Sim.start Sim.initial)).2 in
  Sim.tmux_sessions (outside w1) = [("auth-dev", 3)] ∧
  ∃ w2, createTmuxSession "auth" Sim.dev3 "/wt" w1 = (Return "auth-dev", w2) ∧
        outside w2 = outside w1 ∧ splits (trace w2) = splits (trace w1).
Proof.
  split; [by vm_compute|].
  refine (proj2 createTmuxSession_idempotent _ _ "auth" Sim.dev3 "/wt"
            (Sim.start Sim.initial) _ "auth-dev" "" _ _ _); by vm_compute.
Defined.

(** C6. For a session request with an integer pane count n of at least 1,
    when no session with the id exists yet and the builder returns, the
    pane splits it made are exactly the n - 1 splits for the pane indices
    1 to n - 1, in order.  The flag of a split is -h (horizontal) for the
    layouts even-horizontal and main-horizontal and -v (vertical) for
    even-vertical and main-vertical; for tiled or no layout it is -h at an
    even pane index and -v at an odd one. *)
Theorem createTmuxSession_splits :
  ∀ (W : Type) (R : Runtime W) feature session worktreePath (w w' : World W)
    id (n : nat) e o,
    (panes session == inject_Z (Z.of_nat n))%Q → 1 ≤ n →
    answer (Tmux ["has-session"; "-t"; getSessionName feature (sc_name session)])
           (outside w) = (inl e, o) →
    createTmuxSession feature session worktreePath w = (Return id, w') →
    (∃ new,
       splits (trace w') = splits (trace w) ++ new ∧
       length new = n - 1 ∧
       new = map (λ i, Called (Tmux ["split-window"; "-t"; id; "-c"; worktreePath;
                                     split_flag (layout session) i;
                                     shell (W := W); "-l"]))
                 (seq 1 (n - 1))) ∧
    (∀ i, split_flag (Some EvenHorizontal) i = "-h" ∧
          split_flag (Some MainHorizontal) i = "-h" ∧
          split_flag (Some EvenVertical) i = "-v" ∧
          split_flag (Some MainVertical) i = "-v" ∧
          split_flag (Some Tiled) i = (if Nat.even i then "-h" else "-v") ∧
          split_flag None i = (if Nat.even i then "-h" else "-v")).
Proof.
  intros W R feature session worktreePath w w' id n e o Hn Hpos Ha Hrun.
  split.
  - destruct (createTmuxSession_created _ _ _ _ _ _ _ _ Ha Hrun) as [-> Hs].
    rewrite (split_indices_integer _ n Hn) in Hs.
    eexists. split; [exact Hs|]. split; [|done].
    by rewrite length_map, length_seq.
  - intros i. split_and!; try done; unfold split_flag; by rewrite split_flag_parity.
Qed.

Lemma createTmuxSession_splits_witness :
  let w := Sim.start Sim.initial in
  let w' := (createTmuxSession "test-feature" Sim.dev4 "/wt" w).2 in
  ∃ new, splits (trace w') = splits (trace w) ++ new ∧ length new = 3 ∧
    new = [Called (Tmux ["split-window"; "-t"; "test-feature-dev"; "-c"; "/wt";
                         "-v"; "/bin/zsh"; "-l"]);
           Called (Tmux ["split-window"; "-t"; "test-feature-dev"; "-c"; "/wt";
                         "-h"; "/bin/zsh"; "-l"]);
           Called (Tmux ["split-window"; "-t"; "test-feature-dev"; "-c"; "/wt";
                         "-v"; "/bin/zsh"; "-l"])].
Proof.
  refine (proj1 (createTmuxSession_splits _ _ "test-feature" Sim.dev4 "/wt"
            (Sim.start Sim.initial) _ "test-feature-dev" 4
            (mkError "can't find session") Sim.initial _ _ _ _)).
  - reflexivity.
  - lia.
  - by vm_compute.
  - by vm_compute.
Defined.

(** ** Session ids *)

Lemma in_class_allowed c : in_class c = bool_decide (c ∈ allowed_chars).
Proof. destruct c as [[] [] [] [] [] [] [] []]; by vm_compute. Qed.

Lemma replace_outside_class_map s :
  replace_outside_class s
  = string_of_list_ascii (map spec_sanitize_char (list_ascii_of_string s)).
Proof.
  induction s as [|c s IH]; [done|]. simpl. rewrite IH. f_equal.
  unfold spec_sanitize_char. by rewrite in_class_allowed.
Qed.

Lemma substring_take n s :
  substring 0 n s = string_of_list_ascii (take n (list_ascii_of_string s)).
Proof.
  revert s. induction n as [|n IH]; intros [|c s]; simpl; try done.
  by rewrite IH.
Qed.

Lemma list_ascii_of_string_app a b :
  list_ascii_of_string (a +:+ b) = list_ascii_of_string a ++ list_ascii_of_string b.
Proof. induction a as [|c a IH]; [done|]. simpl. by rewrite IH. Qed.

Lemma length_string_of_list_ascii l :
  String.length (string_of_list_ascii l) = length l.
Proof. induction l as [|c l IH]; [done|]. simpl. by rewrite IH. Qed.

Lemma length_list_ascii_of_string s :
  length (list_ascii_of_string s) = String.length s.
Proof. induction s as [|c s IH]; [done|]. simpl. by rewrite IH. Qed.

Lemma spec_sanitize_char_allowed c : spec_sanitize_char c ∈ allowed_chars.
Proof.
  unfold spec_sanitize_char. case_bool_decide; [done|].
  apply (bool_decide_unpack _). by vm_compute.
Qed.

Lemma length_replace_outside_class s :
  String.length (replace_outside_class s) = String.length s.
Proof. induction s as [|c s IH]; [done|]. simpl. by rewrite IH. Qed.

(** C7. The id derived from a feature name and a session name is
    featureName-sessionName with every character outside A-Z, a-z, 0-9 and
    the dash replaced by a dash, cut to its first 30 characters: it agrees
    with the specification's wording, it has the length of the
    concatenation or 30, whichever is less, and it holds allowed characters
    only. *)
Theorem getSessionName_sanitized (featureName sessionName : string) :
  getSessionName featureName sessionName
    = spec_session_id featureName sessionName ∧
  String.length (getSessionName featureName sessionName)
    = (String.length featureName + 1 + String.length sessionName) `min` 30 ∧
  (∀ c, c ∈ list_ascii_of_string (getSessionName featureName sessionName) →
        c ∈ allowed_chars).
Proof.
  assert (getSessionName featureName sessionName
          = spec_session_id featureName sessionName) as Heq.
  { unfold getSessionName, spec_session_id, dashed.
    rewrite substring_take, replace_outside_class_map.
    rewrite list_ascii_of_string_of_list_ascii.
    by rewrite !list_ascii_of_string_app. }
  split; [done|]. rewrite Heq. unfold spec_session_id. split.
  - rewrite length_string_of_list_ascii, length_take, length_map, !length_app.
    rewrite !length_list_ascii_of_string. cbn [length]. lia.
  - intros c. rewrite list_ascii_of_string_of_list_ascii.
    intros Hc%elem_of_take. destruct Hc as (i & Hc & _).
    apply list_lookup_fmap_Some in Hc as (c' & -> & _).
    apply spec_sanitize_char_allowed.
Qed.

(** ** Configuration validation *)

(** A session with 12 panes in a vertical layout is within the specified
    bound of 15 and is rejected. *)
Lemma SessionConfigSchema_vertical_12 :
  let s := mkSessionConfig "dev" 12 (Some EvenVertical) ["vim"] in
  (panes s == inject_Z 12)%Q ∧
  (1 <= panes s)%Q ∧ (panes s <= specified_max (layout s))%Q ∧
  panes_valid (panes s) = false ∧ SessionConfigSchema s = false.
Proof. by vm_compute. Qed.

(** C8, amended. Validation accepts the pane count exactly when it is a
    number from 1 to 10, whatever the layout; that it is an integer is not
    checked, and a session that the schema accepts has such a count. *)
Theorem panes_valid_range :
  (∀ s : SessionConfig,
     panes_valid (panes s) = true ↔ (1 <= panes s)%Q ∧ (panes s <= 10)%Q) ∧
  (∀ s : SessionConfig, SessionConfigSchema s = true →
     (1 <= panes s)%Q ∧ (panes s <= 10)%Q) ∧
  panes_valid (5 # 2) = true.
Proof.
  assert (∀ s : SessionConfig,
    panes_valid (panes s) = true ↔ (1 <= panes s)%Q ∧ (panes s <= 10)%Q) as Hv.
  { intros s. unfold panes_valid.
    by rewrite andb_true_iff, !Qle_bool_iff. }
  split_and!; [done| |done].
  intros s. unfold SessionConfigSchema.
  rewrite !andb_true_iff. intros [[_ Hp] _]. by apply Hv.
Qed.

Lemma panes_valid_range_witness :
  let s := mkSessionConfig "backend" 2 (Some EvenHorizontal) ["npm test"] in
  SessionConfigSchema s = true ∧ (1 <= panes s)%Q ∧ (panes s <= 10)%Q.
Proof.
  split; [by vm_compute|].
  apply (proj1 (proj2 panes_valid_range)). by vm_compute.
Defined.

(** ** The state tracker *)

(** C10. Loading the state never throws and never exits: it makes one read
    request and returns null when the read is rejected, whatever the
    reason, and when the text is not valid JSON; otherwise it returns the
    parsed value. *)
Theorem loadOrchestraState_never_throws :
  ∀ (W : Type) (R : Runtime W) (w : World W),
    loadOrchestraState w =
      (Return
         match (answer (ReadFile state_path) (outside w)).1 with
         | inl _ => None
         | inr content =>
             match JSON_parse (W := W) content with
             | inl _ => None
             | inr v => v
             end
         end,
       mkWorld (answer (ReadFile state_path) (outside w)).2
               (trace w ++ [Called (ReadFile state_path)])).
Proof.
  intros W R w. unfold loadOrchestraState, try_catch.
  rewrite run_bind, run_call.
  destruct (answer (ReadFile state_path) (outside w)) as [[e|content] o]; [done|].
  simpl. by destruct (JSON_parse content).
Qed.

Example loadOrchestraState_absent_alike :
  (loadOrchestraState (Sim.start Sim.initial)).1 = Return None ∧
  (loadOrchestraState
     (Sim.start (Sim.mkSim [] [] [] [(state_path, "<<<<<<< HEAD")] []))).1
    = Return None ∧
  (loadOrchestraState
     (Sim.start (Sim.mkSim [] [] [] [(state_path, "{a}")] []))).1
    = Return None ∧
  (loadOrchestraState
     (Sim.start (Sim.mkSim [] [] []
        [(state_path, Sim.stringify (Sim.document ["auth"; "api"]))]
        [state_path]))).1
    = Return None ∧
  (loadOrchestraState
     (Sim.start (Sim.mkSim [] [] []
        [(state_path, Sim.stringify (Sim.document ["auth"; "api"]))] []))).1
    = Return (Some (Sim.document ["auth"; "api"])).
Proof. by vm_compute. Qed.

(** ** The persisted state *)

Lemma length_substring_0 n s :
  String.length (substring 0 n s) = n `min` String.length s.
Proof.
  rewrite substring_take, length_string_of_list_ascii, length_take.
  by rewrite length_list_ascii_of_string.
Qed.

Lemma getSessionName_truncates feature session :
  getSessionName feature session
  = substring 0 30 (replace_outside_class (dashed feature session)).
Proof. reflexivity. Qed.

Lemma long_name_differs feature session :
  30 < String.length (replace_outside_class (dashed feature session)) →
  replace_outside_class (dashed feature session) ≠ getSessionName feature session.
Proof.
  intros Hlong Heq. apply (f_equal String.length) in Heq.
  rewrite getSessionName_truncates, length_substring_0 in Heq. lia.
Qed.

Lemma buildState_sessions ordered paths now fs ss :
  fs ∈ features (buildState ordered paths now) → ss ∈ fs_sessions fs →
  ∃ f s, f ∈ ordered ∧ s ∈ sessions f ∧
    fs_feature fs = name f ∧ ss_name ss = sc_name s ∧
    session_name ss = replace_outside_class (dashed (name f) (sc_name s)).
Proof.
  simpl. intros (f & -> & Hf)%list_elem_of_fmap. simpl.
  intros (s & -> & Hs)%list_elem_of_fmap. by exists f, s.
Qed.

Section ImplementFacts.

Context {W : Type} `{Runtime W}.

Lemma try_catch_returned {A} (m : M W A) (h : JsError → M W A) w a w' :
  try_catch m h w = (Return a, w') →
  m w = (Return a, w') ∨ ∃ e w1, m w = (Throw e, w1) ∧ h e w1 = (Return a, w').
Proof.
  unfold try_catch. destruct (m w) as [[a'|e|c] w1]; [by left| |done].
  intros Hh. right. by exists e, w1.
Qed.

Lemma saveOrchestraState_returned state (w w' : World W) :
  saveOrchestraState state w = (Return tt, w') →
  trace w' = trace w ++ [Called (Mkdir ".maestro");
                         Called (WriteFile state_path (JSON_stringify state))].
Proof.
  unfold saveOrchestraState.
  intros (v1 & w1 & [_ H1]%call_returned & Hrun)%bind_returned.
  apply bind_returned in Hrun as (v2 & w2 & [_ H2]%call_returned & Hret).
  assert (w2 = w') as -> by (by injection Hret).
  by rewrite H2, H1, <-app_assoc.
Qed.

(** A run that returns has written the state built from the ordered
    features as its last two requests. *)
Lemma implementCommand_returned options config featureOrder (w w' : World W) :
  implementCommand options config featureOrder w = (Return tt, w') →
  ∃ paths w0,
    trace w' = trace w0 ++
      [Called (Mkdir ".maestro");
       Called (WriteFile state_path
                 (JSON_stringify
                    (buildState (orderedFeatures config featureOrder) paths
                                (now_toISOString (outside w0)))))].
Proof.
  unfold implementCommand.
  intros [Hrun|(e & w1 & _ & Hh)]%try_catch_returned.
  2:{ apply bind_returned in Hh as (u & w2 & _ & Hexit). done. }
  apply bind_returned in Hrun as (paths & w1 & _ & Hrun).
  apply bind_returned in Hrun as (u2 & w2 & _ & Hrun).
  apply bind_returned in Hrun as (sm & w3 & _ & Hrun).
  apply bind_returned in Hrun as (now & w4 & Hnow & Hsave).
  injection Hnow as <- <-.
  apply saveOrchestraState_returned in Hsave. by exists paths, w3.
Qed.

(** The session builder asks first whether the session exists and, when
    it does not, creates it next, under the same id. *)
Lemma createTmuxSession_first_requests feature session worktreePath
    (w w' : World W) id :
  createTmuxSession feature session worktreePath w = (Return id, w') →
  ∃ post,
    trace w' = trace w
      ++ Called (Tmux ["has-session"; "-t"; getSessionName feature (sc_name session)])
      :: post ∧
    ∀ e, (answer (Tmux ["has-session"; "-t";
                        getSessionName feature (sc_name session)]) (outside w)).1
         = inl e →
      ∃ post',
        post = Called (Tmux ["new-session"; "-d"; "-s";
                             getSessionName feature (sc_name session);
                             "-c"; worktreePath; shell (W := W); "-l"]) :: post'.
Proof.
  destruct (answer (has_session_call (getSessionName feature (sc_name session)))
              (outside w)) as [[e|v] o] eqn:Ha.
  - unfold has_session_call in Ha. unfold createTmuxSession.
    rewrite run_bind. unfold try_catch at 1.
    rewrite run_bind, (run_call_rejected _ _ _ _ Ha). rewrite run_ret.
    intros (v1 & w1 & [_ Hnew]%call_returned & Hrun)%bind_returned.
    eapply recorded_run in Hrun as (evs & Ht & _).
    2:{ apply recorded_bind; [apply recorded_for_each; recorded|]. intros _.
        apply recorded_bind; [destruct (layout session); recorded|]. recorded. }
    eexists. split.
    + rewrite Ht, Hnew. simpl. rewrite <-!app_assoc. reflexivity.
    + intros _ _. by eexists.
  - rewrite (createTmuxSession_existing _ _ _ _ _ _ Ha). intros [= <- <-].
    unfold has_session_call in Ha. exists []. split; [done|].
    intros e He. by rewrite Ha in He.
Qed.

(** A session phase that ran to its end has asked for every session of
    every feature with a worktree path. *)
Lemma buildSessions_visit ordered paths (w w' : World W) sessionMap f s :
  buildSessions ordered paths w = (Return sessionMap, w') →
  f ∈ ordered → s ∈ sessions f → truthy (map_get (name f) paths) = true →
  ∃ pre post,
    trace w' = trace w ++ pre
      ++ Called (Tmux ["has-session"; "-t"; getSessionName (name f) (sc_name s)])
      :: post ∧
    ∀ e, (answer (Tmux ["has-session"; "-t"; getSessionName (name f) (sc_name s)])
                 (replay (outside w) pre)).1 = inl e →
      ∃ post',
        post = Called (Tmux ["new-session"; "-d"; "-s";
                             getSessionName (name f) (sc_name s); "-c";
                             default "" (map_get (name f) paths);
                             shell (W := W); "-l"]) :: post'.
Proof.
  unfold buildSessions. intros Hrun Hf Hs Hpath.
  eapply for_fold_visit in Hrun
    as (sm1 & wa & sm2 & wb & pre3 & post3 & Hbody & Hta & Hoa & Htb);
    [| |exact Hf].
  2:{ intros feature sessionMap'.
      destruct (truthy (map_get (name feature) paths)); [|recorded].
      apply recorded_bind.
      { apply recorded_for_fold. intros. apply session_step_recorded. }
      intros featureSessions. apply recorded_bind; [|recorded].
      destruct (_ || _); [apply customizeClaudeMd_recorded|recorded]. }
  cbv beta in Hbody. rewrite Hpath in Hbody.
  apply bind_returned in Hbody as (featureSessions & wc & Hinner & Hrest).
  eapply recorded_run in Hrest as (post2 & Htc & _).
  2:{ apply recorded_bind; [|recorded].
      destruct (_ || _); [apply customizeClaudeMd_recorded|recorded]. }
  eapply for_fold_visit in Hinner
    as (acc1 & wd & acc2 & we & pre4 & post4 & Hstep & Htd & Hod & Hte);
    [| |exact Hs].
  2:{ intros. apply session_step_recorded. }
  cbv beta in Hstep.
  apply bind_returned in Hstep as (id & wf & Hcreate & Hrest).
  eapply recorded_run in Hrest as (post5 & Htf & _).
  2:{ apply recorded_bind; [apply injectPrompts_recorded|]. recorded. }
  apply createTmuxSession_first_requests in Hcreate as (post6 & Hcr & Hnew).
  exists (pre3 ++ pre4), (post6 ++ post5 ++ post4 ++ post2 ++ post3). split.
  - rewrite Htb, Htc, Hte, Htf, Hcr, Htd, Hta.
    by repeat (rewrite <-app_assoc; simpl).
  - intros e He. rewrite replay_app, <-Hoa, <-Hod in He.
    destruct (Hnew e He) as [post' ->]. by eexists.
Qed.

End ImplementFacts.


(** ** The prompt injector *)

Section InjectorFacts.

Context {W : Type} `{Runtime W}.

Lemma injectPrompts_loop sessionName prompts :
  injectPrompts sessionName prompts
  = for_each (imap (λ i p, (i, p)) prompts) (inject_body sessionName).
Proof. reflexivity. Qed.

Lemma sends_ret (w : World W) : sends (mret tt) w [].
Proof. exists []. simpl. by rewrite app_nil_r. Qed.

Lemma sends_call_then c (k : M W unit) all :
  (∀ w, sends k w all) → ∀ w, sends (call c;; k) w (Called c :: all).
Proof.
  intros Hk w. unfold sends. rewrite run_bind, run_call.
  destruct (answer c (outside w)) as [[e|v] o]; simpl.
  { exists [Called c]. split_and!; [done| |done..]. by exists all. }
  destruct (Hk (mkWorld o (trace w ++ [Called c])))
    as (evs & Ht & [k' Hk'] & Hall & Hexit).
  exists (Called c :: evs). split_and!.
  - rewrite Ht. simpl. by rewrite <-app_assoc.
  - exists k'. by rewrite Hk'.
  - intros Hr. by rewrite (Hall Hr).
  - done.
Qed.

Lemma sends_emit_then ev (k : M W unit) all :
  (∀ w, sends k w all) → ∀ w, sends (emit ev;; k) w (ev :: all).
Proof.
  intros Hk w. unfold sends. rewrite run_bind. simpl.
  destruct (Hk (mkWorld (outside w) (trace w ++ [ev])))
    as (evs & Ht & [k' Hk'] & Hall & Hexit).
  exists (ev :: evs). split_and!.
  - rewrite Ht. simpl. by rewrite <-app_assoc.
  - exists k'. by rewrite Hk'.
  - intros Hr. by rewrite (Hall Hr).
  - done.
Qed.

Lemma inject_body_sends sessionName i prompt w :
  sends (inject_body sessionName (i, prompt)) w
        (prompt_events sessionName i prompt).
Proof.
  unfold inject_body, prompt_events.
  destruct (String.eqb prompt ""); [apply sends_ret|].
  revert w. apply sends_call_then, sends_emit_then.
  apply sends_call_then, sends_call_then. apply sends_ret.
Qed.

Lemma for_each_sends {A} (xs : list A) (body : A → M W unit)
    (all : A → list Event) :
  (∀ x w, sends (body x) w (all x)) →
  ∀ w, sends (for_each xs body) w (concat (map all xs)).
Proof.
  intros Hbody. induction xs as [|x xs IH]; intros w.
  { exists []. simpl. by rewrite app_nil_r. }
  simpl. unfold sends. rewrite run_bind.
  destruct (Hbody x w) as (evs & Ht & [k Hk] & Hall & Hexit).
  destruct (body x w) as [[[]|e|c] w1]; simpl in *.
  - destruct (IH w1) as (evs' & Ht' & [k' Hk'] & Hall' & Hexit').
    specialize (Hall eq_refl) as ->.
    exists (all x ++ evs'). split_and!.
    + by rewrite Ht', Ht, app_assoc.
    + exists k'. by rewrite Hk', app_assoc.
    + intros Hr. by rewrite (Hall' Hr).
    + done.
  - exists evs. split_and!; [done| |done..].
    exists (k ++ concat (map all xs)). by rewrite Hk, app_assoc.
  - by destruct (Hexit c).
Qed.

Lemma imap_pairs {A B} (f : nat → A → B) (h : nat → nat) (l : list A) :
  imap (λ i, f (h i)) l
  = map (λ '(i, x), f i x) (imap (λ i x, (h i, x)) l).
Proof.
  revert h. induction l as [|x l IH]; intros h; [done|].
  simpl. f_equal. exact (IH (h ∘ S)).
Qed.

Lemma inject_events_pairs sessionName prompts :
  inject_events sessionName prompts
  = concat (map (λ '(i, p), prompt_events sessionName i p)
                (imap (λ i p, (i, p)) prompts)).
Proof.
  unfold inject_events. f_equal.
  exact (imap_pairs (prompt_events sessionName) id prompts).
Qed.

Lemma injectPrompts_sends sessionName prompts w :
  sends (injectPrompts sessionName prompts) w
        (inject_events sessionName prompts).
Proof.
  rewrite injectPrompts_loop, inject_events_pairs.
  apply for_each_sends. intros [i p] w'. apply inject_body_sends.
Qed.

End InjectorFacts.

Lemma elem_of_concat {A} (x : A) (ls : list (list A)) :
  x ∈ concat ls → ∃ l, x ∈ l ∧ l ∈ ls.
Proof.
  induction ls as [|l ls IH]; simpl; [by intros ?%elem_of_nil|].
  intros [Hx|Hx]%elem_of_app.
  - exists l. split; [done|left].
  - destruct (IH Hx) as (l' & ? & ?). exists l'. split; [done|by right].
Qed.

Lemma sublist_concat {A} (l : list A) (ls : list (list A)) :
  l ∈ ls → l `sublist_of` concat ls.
Proof.
  induction ls as [|l' ls IH]; [by intros ?%elem_of_nil|].
  intros [->|Hl]%elem_of_cons; simpl.
  - by apply sublist_inserts_r.
  - by apply sublist_inserts_l, IH.
Qed.

(** Every event of the injection is the settling delay or keys sent to the
    pane with the index of a non-empty prompt: the interrupt, that prompt,
    or the hint text. *)
Lemma inject_events_elem sessionName prompts ev :
  ev ∈ inject_events sessionName prompts →
  ev = Slept 100 ∨
  ∃ i p keys, prompts !! i = Some p ∧ p ≠ "" ∧
    keys ∈ ["C-c"; p; execution_hint] ∧
    ev = Called (Tmux ["send-keys"; "-t"; pane_target sessionName i; keys]).
Proof.
  unfold inject_events. intros (evs & Hev & Hevs)%elem_of_concat.
  apply elem_of_lookup_imap in Hevs as (i & p & -> & Hp).
  unfold prompt_events in Hev.
  destruct (String.eqb_spec p "") as [Heq|Hne]; [by apply elem_of_nil in Hev|].
  assert (∀ keys, keys ∈ ["C-c"; p; execution_hint] →
    ∃ i0 p0 keys0, prompts !! i0 = Some p0 ∧ p0 ≠ "" ∧
      keys0 ∈ ["C-c"; p0; execution_hint] ∧
      Called (Tmux ["send-keys"; "-t"; pane_target sessionName i; keys])
      = Called (Tmux ["send-keys"; "-t"; pane_target sessionName i0; keys0]))
    as Hkeys by (intros keys Hk; by exists i, p, keys).
  apply elem_of_cons in Hev as [->|Hev]; [right; apply Hkeys; set_solver|].
  apply elem_of_cons in Hev as [->|Hev]; [by left|].
  apply elem_of_cons in Hev as [->|Hev]; [right; apply Hkeys; set_solver|].
  apply list_elem_of_singleton in Hev as ->. right. apply Hkeys. set_solver.
Qed.


(** Three panes and two prompts: pane index 2 is not written to. *)
Example injectPrompts_three_panes_two_prompts :
  let run := (id ← createTmuxSession "test-feature" Sim.dev3 "/wt";
              injectPrompts id (prompts Sim.dev3)) (Sim.start Sim.initial) in
  run.1 = Return tt ∧
  filter (λ ev, negb (is_split ev)) (drop 2 (trace run.2)) =
    [Called (Tmux ["select-layout"; "-t"; "test-feature-dev"; "tiled"]);
     Called (Tmux ["rename-window"; "-t"; "test-feature-dev"; "dev"]);
     Called (Tmux ["send-keys"; "-t"; "test-feature-dev:0.0"; "C-c"]);
     Slept 100;
     Called (Tmux ["send-keys"; "-t"; "test-feature-dev:0.0"; "vim ."]);
     Called (Tmux ["send-keys"; "-t"; "test-feature-dev:0.0"; execution_hint]);
     Called (Tmux ["send-keys"; "-t"; "test-feature-dev:0.1"; "C-c"]);
     Slept 100;
     Called (Tmux ["send-keys"; "-t"; "test-feature-dev:0.1"; "npm test --watch"]);
     Called (Tmux ["send-keys"; "-t"; "test-feature-dev:0.1"; execution_hint])].
Proof. by vm_compute. Qed.

Section InjectorOutcome.

Context {W : Type} `{Runtime W}.

(** Doing a list of events ends at its first rejected request, with the
    error of that request, and returns when there is none. *)
Lemma perform_run evs : ∀ w : World W,
  perform evs w =
  match first_rejection (outside w) evs with
  | None => (Return tt, mkWorld (replay (outside w) evs) (trace w ++ evs))
  | Some (k, e) =>
      (Throw e, mkWorld (replay (outside w) (take (S k) evs))
                        (trace w ++ take (S k) evs))
  end.
Proof.
  induction evs as [|ev evs IH]; intros w.
  { simpl. rewrite app_nil_r. by destruct w. }
  assert (∀ (o : W) t, perform evs (mkWorld o (t ++ [ev])) =
    match prod_map S id <$> first_rejection o evs with
    | None => (Return tt, mkWorld (replay o evs) (t ++ ev :: evs))
    | Some (k, e) =>
        (Throw e, mkWorld (replay o (take k evs)) (t ++ ev :: take k evs))
    end) as Hrest.
  { intros o t. rewrite IH. simpl.
    destruct (first_rejection o evs) as [[k e]|]; simpl;
      by rewrite <-app_assoc. }
  destruct ev as [c|ms|label|label e0]; simpl.
  - rewrite run_bind, run_call.
    destruct (answer c (outside w)) as [[e|v] o]; simpl; [by rewrite take_0|].
    rewrite Hrest. by destruct (first_rejection o evs) as [[k e]|].
  - rewrite run_bind. simpl. rewrite Hrest.
    by destruct (first_rejection (outside w) evs) as [[k e]|].
  - rewrite run_bind. simpl. rewrite Hrest.
    by destruct (first_rejection (outside w) evs) as [[k e]|].
  - rewrite run_bind. simpl. rewrite Hrest.
    by destruct (first_rejection (outside w) evs) as [[k e]|].
Qed.

Lemma perform_app evs1 evs2 : ∀ w : World W,
  perform (evs1 ++ evs2) w = (perform evs1;; perform evs2) w.
Proof.
  induction evs1 as [|ev evs1 IH]; intros w; [done|].
  destruct ev as [c|ms|label|label e0]; simpl; rewrite !run_bind.
  - destruct (call c w) as [[v|e|code] w1]; [|done..].
    by rewrite IH, run_bind.
  - simpl. by rewrite IH, run_bind.
  - simpl. by rewrite IH, run_bind.
  - simpl. by rewrite IH, run_bind.
Qed.

Lemma for_each_perform {A} (xs : list A) (body : A → M W unit)
    (all : A → list Event) :
  (∀ x w, body x w = perform (all x) w) →
  ∀ w, for_each xs body w = perform (concat (map all xs)) w.
Proof.
  intros Hbody. induction xs as [|x xs IH]; intros w; [done|].
  simpl. rewrite perform_app, !run_bind, Hbody.
  destruct (perform (all x) w) as [[[]|e|c] w1]; [apply IH|done..].
Qed.

Lemma inject_body_perform sessionName i prompt (w : World W) :
  inject_body sessionName (i, prompt) w
  = perform (prompt_events sessionName i prompt) w.
Proof.
  unfold inject_body, prompt_events. by destruct (String.eqb prompt "").
Qed.

Lemma injectPrompts_perform sessionName prompts (w : World W) :
  injectPrompts sessionName prompts w
  = perform (inject_events sessionName prompts) w.
Proof.
  rewrite injectPrompts_loop, inject_events_pairs.
  apply for_each_perform. intros [i p] w'. apply inject_body_perform.
Qed.

End InjectorOutcome.

(** A prompt that is the name of a key: it is passed to send-keys as it
    is, like any other prompt. *)
Example injectPrompts_key_name_prompt :
  let s := mkSessionConfig "dev" 1 None ["Enter"] in
  let run := (id ← createTmuxSession "auth" s "/wt";
              injectPrompts id (prompts s)) (Sim.start Sim.initial) in
  run.1 = Return tt ∧
  drop 3 (trace run.2) =
    [Called (Tmux ["send-keys"; "-t"; "auth-dev:0.0"; "C-c"]);
     Slept 100;
     Called (Tmux ["send-keys"; "-t"; "auth-dev:0.0"; "Enter"]);
     Called (Tmux ["send-keys"; "-t"; "auth-dev:0.0"; execution_hint])].
Proof. by vm_compute. Qed.


(** ** Provisioning failures *)

Lemma deletions_snoc t ev :
  is_delete ev = false → deletions (t ++ [ev]) = deletions t.
Proof.
  intros Hev. unfold deletions. rewrite filter_app.
  rewrite filter_cons_False by (rewrite Hev; intros []). apply app_nil_r.
Qed.

Section RollbackFacts.

Context {W : Type} `{Runtime W}.

Lemma no_deletion_ret {A} (a : A) : no_deletion (mret a : M W A).
Proof. by intros w. Qed.

Lemma no_deletion_throw {A} e : no_deletion (throw e : M W A).
Proof. by intros w. Qed.

Lemma no_deletion_exit {A} c : no_deletion (process_exit c : M W A).
Proof. by intros w. Qed.

Lemma no_deletion_read {A} (f : W → A) : no_deletion (read f).
Proof. by intros w. Qed.

Lemma no_deletion_emit ev :
  is_delete ev = false → no_deletion (emit (W := W) ev).
Proof. intros Hev w. simpl. by apply deletions_snoc. Qed.

Lemma no_deletion_call c :
  is_delete (Called c) = false → no_deletion (call (W := W) c).
Proof. intros Hc w. rewrite run_call. simpl. by apply deletions_snoc. Qed.

Lemma no_deletion_bind {A B} (m : M W A) (k : A → M W B) :
  no_deletion m → (∀ a, no_deletion (k a)) → no_deletion (m ≫= k).
Proof.
  intros Hm Hk w. rewrite run_bind. specialize (Hm w).
  destruct (m w) as [[a|e|c] w1]; [|done..].
  by rewrite (Hk a w1).
Qed.

Lemma no_deletion_try_catch {A} (m : M W A) (h : JsError → M W A) :
  no_deletion m → (∀ e, no_deletion (h e)) → no_deletion (try_catch m h).
Proof.
  intros Hm Hh w. unfold try_catch. specialize (Hm w).
  destruct (m w) as [[a|e|c] w1]; [done| |done].
  by rewrite (Hh e w1).
Qed.

Lemma no_deletion_for_each {A} (xs : list A) (body : A → M W unit) :
  (∀ x, no_deletion (body x)) → no_deletion (for_each xs body).
Proof.
  intros Hbody. induction xs as [|x xs IH]; [apply no_deletion_ret|].
  simpl. by apply no_deletion_bind.
Qed.

Lemma no_deletion_for_fold {A S} (xs : list A) (body : A → S → M W S) s :
  (∀ x s', no_deletion (body x s')) → no_deletion (for_fold xs body s).
Proof.
  intros Hbody. revert s. induction xs as [|x xs IH]; intros s;
    [apply no_deletion_ret|].
  simpl. by apply no_deletion_bind.
Qed.

Lemma no_deletion_promise_all features baseBranch :
  no_deletion (promise_all (W := W) features baseBranch).
Proof.
  unfold promise_all. apply no_deletion_bind.
  - apply no_deletion_for_fold. intros feature started.
    apply no_deletion_bind; [|intros; apply no_deletion_ret].
    apply no_deletion_try_catch; [|intros; apply no_deletion_ret].
    apply no_deletion_bind; [|intros; apply no_deletion_ret].
    by apply no_deletion_call.
  - intros started. apply no_deletion_for_fold. intros [feature [e|p]] paths.
    + apply no_deletion_bind; [by apply no_deletion_emit|].
      intros. apply no_deletion_throw.
    + apply no_deletion_ret.
Qed.

End RollbackFacts.

Create HintDb no_deletion.

#[local] Hint Resolve no_deletion_ret no_deletion_throw no_deletion_exit
  no_deletion_read no_deletion_bind no_deletion_try_catch
  no_deletion_for_each no_deletion_for_fold no_deletion_promise_all
  : no_deletion.
#[local] Hint Extern 1 (no_deletion (call _)) =>
  apply no_deletion_call; reflexivity : no_deletion.
#[local] Hint Extern 1 (no_deletion (emit _)) =>
  apply no_deletion_emit; reflexivity : no_deletion.
#[local] Hint Extern 2 (no_deletion (if ?b then _ else _)) =>
  destruct b : no_deletion.
#[local] Hint Extern 2 (no_deletion (match ?x with _ => _ end)) =>
  destruct x : no_deletion.
#[local] Hint Extern 3 (no_deletion (_ ≫= _)) =>
  apply no_deletion_bind; [|intros ?] : no_deletion.

Ltac no_deletion := intros; eauto 20 with no_deletion.

Section NoRollback.

Context {W : Type} `{Runtime W}.

Lemma createWorktree_no_deletion baseBranch feature paths :
  no_deletion (createWorktree (W := W) baseBranch feature paths).
Proof. unfold createWorktree. no_deletion. Qed.

Lemma createWorktrees_no_deletion ordered baseBranch parallel :
  no_deletion (createWorktrees (W := W) ordered baseBranch parallel).
Proof.
  unfold createWorktrees. destruct parallel.
  - apply no_deletion_promise_all.
  - apply no_deletion_for_fold. intros. apply createWorktree_no_deletion.
Qed.

Lemma createTmuxSession_no_deletion feature session worktreePath :
  no_deletion (createTmuxSession (W := W) feature session worktreePath).
Proof.
  unfold createTmuxSession.
  apply no_deletion_bind; [no_deletion|]. intros [|]; [no_deletion|].
  apply no_deletion_bind; [no_deletion|]. intros _.
  apply no_deletion_bind; [apply no_deletion_for_each; no_deletion|]. intros _.
  apply no_deletion_bind; [|no_deletion].
  destruct (layout session); no_deletion.
Qed.

Lemma injectPrompts_no_deletion sessionName prompts :
  no_deletion (injectPrompts (W := W) sessionName prompts).
Proof.
  unfold injectPrompts. apply no_deletion_for_each. intros [i p].
  destruct (String.eqb p ""); no_deletion.
Qed.

Lemma customizeClaudeMd_no_deletion feature worktreePath mode :
  no_deletion (customizeClaudeMd (W := W) feature worktreePath mode).
Proof. unfold customizeClaudeMd. destruct mode; no_deletion. Qed.

Lemma installDependencies_no_deletion paths :
  no_deletion (installDependencies (W := W) paths).
Proof.
  unfold installDependencies. apply no_deletion_for_each. intros [f p].
  apply no_deletion_bind; [no_deletion|]. intros pm.
  destruct (truthy pm); no_deletion.
Qed.

Lemma buildSessions_no_deletion ordered paths :
  no_deletion (buildSessions (W := W) ordered paths).
Proof.
  unfold buildSessions. apply no_deletion_for_fold. intros f sm.
  destruct (truthy _); [|no_deletion].
  apply no_deletion_bind.
  - apply no_deletion_for_fold. intros s acc.
    apply no_deletion_bind; [apply createTmuxSession_no_deletion|]. intros id.
    apply no_deletion_bind; [apply injectPrompts_no_deletion|]. no_deletion.
  - intros fsess. apply no_deletion_bind; [|no_deletion].
    destruct (_ || _); [apply customizeClaudeMd_no_deletion|no_deletion].
Qed.

Lemma saveOrchestraState_no_deletion state :
  no_deletion (saveOrchestraState (W := W) state).
Proof. unfold saveOrchestraState. no_deletion. Qed.

(** No run of the command requests a worktree deletion. *)
Lemma implementCommand_no_deletion options config featureOrder :
  no_deletion (implementCommand (W := W) options config featureOrder).
Proof.
  unfold implementCommand. apply no_deletion_try_catch; [|no_deletion].
  apply no_deletion_bind; [apply createWorktrees_no_deletion|]. intros paths.
  apply no_deletion_bind.
  { destruct (negb _); [apply installDependencies_no_deletion|no_deletion]. }
  intros _. apply no_deletion_bind; [apply buildSessions_no_deletion|].
  intros _. apply no_deletion_bind; [no_deletion|]. intros now.
  apply saveOrchestraState_no_deletion.
Qed.

(** A failed provisioning ends the command at once. *)
Lemma implementCommand_provisioning_failed options config featureOrder
    (w w1 : World W) e :
  createWorktrees (orderedFeatures config featureOrder) "main"
    (negb (sequential options) && default true (settings_parallel config)) w
    = (Throw e, w1) →
  implementCommand options config featureOrder w =
    (Exit 1, mkWorld (outside w1)
               (trace w1 ++ [ConsoleError "Implementation failed:" e])).
Proof.
  intros Hfail. unfold implementCommand, try_catch.
  rewrite run_bind, Hfail. reflexivity.
Qed.

End NoRollback.

(** C1. Three features of which git refuses the third, created one after
    the other: provisioning fails after 2 of 3 workspaces succeeded.  The
    command does not delete the two worktrees and does not throw the error
    to its caller: it exits with code 1, requests no deletion, and the two
    worktrees created before the failure remain. *)
Lemma provisioning_failure_no_rollback :
  let fs := [Resolver.plain_feature "f1" []; Resolver.plain_feature "f2" [];
             Resolver.plain_feature "f3" []] in
  let run := implementCommand (mkOptions true true) (mkConfig (Some fs) None)
               ["f1"; "f2"; "f3"] (Sim.start (Sim.mkSim ["f3"] [] [] [] [])) in
  run.1 = Exit 1 ∧
  Sim.worktrees (outside run.2) = ["f1"; "f2"] ∧
  deletions (trace run.2) = [] ∧
  trace run.2 =
    [Called (GitCreateWorktree "f1" "main");
     Called (GitCreateWorktree "f2" "main");
     Called (GitCreateWorktree "f3" "main");
     ConsoleError "Failed to create worktree for f3"
       (mkError "fatal: cannot create worktree f3");
     ConsoleError "Implementation failed:"
       (mkError "fatal: cannot create worktree f3")].
Proof. by vm_compute. Qed.

(** X20. When workspace provisioning throws, in either mode, the command
    reports the error on the console and exits with code 1; the error is
    not thrown to a caller.  No worktree deletion is requested, during
    provisioning or after it, and nothing is requested after the failure:
    the outside world stays as provisioning left it. *)
Theorem provisioning_failure_exits :
  ∀ (W : Type) (R : Runtime W) options config featureOrder (w w1 : World W) e,
    createWorktrees (orderedFeatures config featureOrder) "main"
      (negb (sequential options) && default true (settings_parallel config)) w
      = (Throw e, w1) →
    let run := implementCommand options config featureOrder w in
    run.1 = Exit 1 ∧
    outside run.2 = outside w1 ∧
    trace run.2 = trace w1 ++ [ConsoleError "Implementation failed:" e] ∧
    deletions (trace run.2) = deletions (trace w).
Proof.
  intros W R options config featureOrder w w1 e Hfail. simpl.
  rewrite (implementCommand_provisioning_failed _ _ _ _ _ _ Hfail). simpl.
  split_and!; [done..|].
  rewrite deletions_snoc by done.
  pose proof (createWorktrees_no_deletion
    (orderedFeatures config featureOrder) "main"
    (negb (sequential options) && default true (settings_parallel config)) w)
    as Hnd.
  by rewrite Hfail in Hnd.
Qed.

Lemma provisioning_failure_exits_witness :
  let fs := [Resolver.plain_feature "f1" []; Resolver.plain_feature "f2" [];
             Resolver.plain_feature "f3" []] in
  let w := Sim.start (Sim.mkSim ["f2"] [] [] [] []) in
  let run := implementCommand (mkOptions false true) (mkConfig (Some fs) None)
               ["f1"; "f2"; "f3"] w in
  run.1 = Exit 1 ∧
  outside run.2 = Sim.mkSim ["f2"] ["f1"] [] [] [] ∧
  trace run.2 =
    [Called (GitCreateWorktree "f1" "main");
     Called (GitCreateWorktree "f2" "main");
     ConsoleError "Failed to create worktree for f2"
       (mkError "fatal: cannot create worktree f2")]
    ++ [ConsoleError "Implementation failed:"
          (mkError "fatal: cannot create worktree f2")] ∧
  deletions (trace run.2) = deletions (trace w).
Proof.
  refine (provisioning_failure_exits _ _ (mkOptions false true) _ _ _
            (mkWorld _ _) (mkError "fatal: cannot create worktree f2") _).
  by vm_compute.
Defined.

(** A run with a long session name: the tmux session carries the first 30
    characters, the recorded state the whole sanitized name. *)
Example long_session_name_run :
  let f := mkFeatureConfig "user-authentication" "OAuth2" (Some "main") None
             [mkSessionConfig "backend services" 2 None ["npm run dev"]]
             None None [] in
  let run := implementCommand (mkOptions true true) (mkConfig (Some [f]) None)
               ["user-authentication"] (Sim.start Sim.initial) in
  run.1 = Return tt ∧
  Sim.tmux_sessions (outside run.2) = [("user-authentication-backend-se", 2)] ∧
  map (λ fs, map session_name (fs_sessions fs))
      (features (buildState [f]
         [("user-authentication", Sim.worktree_dir "user-authentication")]
         "2024-01-01T00:00:00.000Z"))
    = [["user-authentication-backend-services"]].
Proof. by vm_compute. Qed.


(** * Further properties *)

(** ** Events and outcomes of computations *)

Section TameFacts.

Context {W : Type} `{Runtime W}.

Lemma tame_ret {A} P (a : A) : tame P (mret a : M W A).
Proof. intros w. split; [|done]. exists []. simpl. by rewrite app_nil_r. Qed.

Lemma tame_throw {A} P e : tame P (throw e : M W A).
Proof. intros w. split; [|done]. exists []. simpl. by rewrite app_nil_r. Qed.

Lemma tame_read {A} P (f : W → A) : tame P (read f).
Proof. intros w. split; [|done]. exists []. simpl. by rewrite app_nil_r. Qed.

Lemma tame_emit (P : Event → Prop) ev : P ev → tame P (emit (W := W) ev).
Proof. intros Hev w. split; [|done]. exists [ev]. split; [done|]. by constructor. Qed.

Lemma tame_call (P : Event → Prop) c : P (Called c) → tame P (call (W := W) c).
Proof.
  intros Hc w. rewrite run_call. split.
  - exists [Called c]. split; [done|]. by constructor.
  - simpl. by destruct (answer c (outside w)).1.
Qed.

Lemma tame_bind {A B} P (m : M W A) (k : A → M W B) :
  tame P m → (∀ a, tame P (k a)) → tame P (m ≫= k).
Proof.
  intros Hm Hk w. rewrite run_bind.
  destruct (Hm w) as [(evs & Ht & HP) Hexit].
  destruct (m w) as [[a|e|c] w1]; simpl in *.
  - destruct (Hk a w1) as [(evs' & Ht' & HP') Hexit']. split; [|done].
    exists (evs ++ evs'). split; [by rewrite Ht', Ht, app_assoc|].
    by apply Forall_app.
  - split; [by exists evs|done].
  - by destruct (Hexit c).
Qed.

Lemma tame_try_catch {A} P (m : M W A) (h : JsError → M W A) :
  tame P m → (∀ e, tame P (h e)) → tame P (try_catch m h).
Proof.
  intros Hm Hh w. unfold try_catch.
  destruct (Hm w) as [(evs & Ht & HP) Hexit].
  destruct (m w) as [[a|e|c] w1]; simpl in *.
  - split; [by exists evs|done].
  - destruct (Hh e w1) as [(evs' & Ht' & HP') Hexit']. split; [|done].
    exists (evs ++ evs'). split; [by rewrite Ht', Ht, app_assoc|].
    by apply Forall_app.
  - by destruct (Hexit c).
Qed.

Lemma tame_for_each {A} P (xs : list A) (body : A → M W unit) :
  (∀ x, tame P (body x)) → tame P (for_each xs body).
Proof.
  intros Hbody. induction xs as [|x xs IH]; [apply tame_ret|].
  simpl. by apply tame_bind.
Qed.

Lemma tame_for_fold {A S} P (xs : list A) (body : A → S → M W S) s :
  (∀ x s', tame P (body x s')) → tame P (for_fold xs body s).
Proof.
  intros Hbody. revert s. induction xs as [|x xs IH]; intros s; [apply tame_ret|].
  simpl. by apply tame_bind.
Qed.

Lemma tame_mono {A} (P Q : Event → Prop) (m : M W A) :
  (∀ ev, P ev → Q ev) → tame P m → tame Q m.
Proof.
  intros HPQ Hm w. destruct (Hm w) as [(evs & Ht & HP) Hexit]. split; [|done].
  exists evs. split; [done|]. eapply Forall_impl; [exact HP|done].
Qed.

End TameFacts.

Create HintDb tame.

#[local] Hint Resolve tame_ret tame_throw tame_read tame_bind tame_try_catch
  tame_for_each tame_for_fold : tame.
#[local] Hint Extern 1 (tame _ (call _)) =>
  apply tame_call; vm_compute; exact I : tame.
#[local] Hint Extern 1 (tame _ (emit _)) =>
  apply tame_emit; vm_compute; exact I : tame.
#[local] Hint Extern 3 (tame _ (_ ≫= _)) =>
  apply tame_bind; [|intros ?] : tame.

Ltac tame := intros; eauto 20 with tame.

Lemma claude_path_not_state worktreePath :
  String.eqb (path_join worktreePath "CLAUDE.md") state_path = false.
Proof.
  apply String.eqb_neq. intros Heq.
  apply (f_equal list_ascii_of_string) in Heq.
  unfold path_join in Heq. rewrite !list_ascii_of_string_app in Heq.
  apply (f_equal last) in Heq. rewrite !last_app in Heq. by vm_compute in Heq.
Qed.

(** ** What a run of the implement command does and never does *)

Section RunFacts.

Context {W : Type} `{Runtime W}.

Lemma phase_event_run ev : phase_event ev → run_event ev.
Proof. unfold phase_event. by intros [? _]%andb_prop_elim. Qed.

Lemma createWorktree_tame feature paths :
  tame phase_event (createWorktree (W := W) "main" feature paths).
Proof. unfold createWorktree. tame. Qed.

Lemma promise_all_tame features :
  tame phase_event (promise_all (W := W) features "main").
Proof.
  unfold promise_all. apply tame_bind.
  - apply tame_for_fold. intros feature started.
    unfold createWorktree_start, pending. tame.
  - intros started. apply tame_for_fold. intros [feature [e|p]] paths;
      unfold createWorktree_resume; tame.
Qed.

Lemma createWorktrees_tame ordered parallel :
  tame phase_event (createWorktrees (W := W) ordered "main" parallel).
Proof.
  unfold createWorktrees. destruct parallel.
  - apply promise_all_tame.
  - apply tame_for_fold. intros. apply createWorktree_tame.
Qed.

Lemma createTmuxSession_tame feature session worktreePath :
  tame phase_event (createTmuxSession (W := W) feature session worktreePath).
Proof.
  unfold createTmuxSession.
  apply tame_bind; [tame|]. intros [|]; [tame|].
  apply tame_bind; [tame|]. intros _.
  apply tame_bind; [apply tame_for_each; tame|]. intros _.
  apply tame_bind; [|tame].
  destruct (layout session); tame.
Qed.

Lemma injectPrompts_tame sessionName prompts :
  tame phase_event (injectPrompts (W := W) sessionName prompts).
Proof.
  unfold injectPrompts. apply tame_for_each. intros [i p].
  destruct (String.eqb p ""); tame.
Qed.

Lemma customizeClaudeMd_tame feature worktreePath :
  tame phase_event (customizeClaudeMd (W := W) feature worktreePath Split).
Proof.
  unfold customizeClaudeMd. apply tame_bind; [|tame].
  apply tame_call. unfold phase_event. simpl.
  by rewrite claude_path_not_state.
Qed.

Lemma installDependencies_tame paths :
  tame phase_event (installDependencies (W := W) paths).
Proof.
  unfold installDependencies. apply tame_for_each. intros [f p].
  apply tame_bind; [tame|]. intros pm. destruct (truthy pm); tame.
Qed.

Lemma buildSessions_tame ordered paths :
  tame phase_event (buildSessions (W := W) ordered paths).
Proof.
  unfold buildSessions. apply tame_for_fold. intros f sm.
  destruct (truthy _); [|tame].
  apply tame_bind.
  - apply tame_for_fold. intros s acc.
    apply tame_bind; [apply createTmuxSession_tame|]. intros id.
    apply tame_bind; [apply injectPrompts_tame|]. tame.
  - intros fsess. apply tame_bind; [|tame].
    destruct (_ || _); [apply customizeClaudeMd_tame|tame].
Qed.

Lemma saveOrchestraState_tame state :
  tame run_event (saveOrchestraState (W := W) state).
Proof. unfold saveOrchestraState. tame. Qed.

Lemma implement_body_tame options config featureOrder :
  tame run_event
    (let ordered := orderedFeatures config featureOrder in
     worktreePaths ←
       createWorktrees (W := W) ordered "main"
         (negb (sequential options) && default true (settings_parallel config));
     (if negb (skipDeps options) then installDependencies worktreePaths
      else mret tt);;
     buildSessions ordered worktreePaths;;
     now ← read now_toISOString;
     saveOrchestraState (buildState ordered worktreePaths now)).
Proof.
  simpl. apply tame_bind.
  { eapply tame_mono; [apply phase_event_run|apply createWorktrees_tame]. }
  intros paths. apply tame_bind.
  { eapply tame_mono; [apply phase_event_run|].
    destruct (negb _); [apply installDependencies_tame|apply tame_ret]. }
  intros _. apply tame_bind.
  { eapply tame_mono; [apply phase_event_run|apply buildSessions_tame]. }
  intros _. apply tame_bind; [apply tame_read|]. intros now.
  apply saveOrchestraState_tame.
Qed.

(** A [try]/[catch] whose handler reports the error and exits. *)
Lemma try_catch_exit (P : Event → Prop) label (m : M W unit) (w : World W) :
  tame P m →
  let run := try_catch m (λ e, emit (ConsoleError label e);; process_exit 1) w in
  (run.1 = Return tt ∨ run.1 = Exit 1) ∧
  ∃ evs, trace run.2 = trace w ++ evs ∧
         Forall (λ ev, P ev ∨ ∃ e, ev = ConsoleError label e) evs.
Proof.
  intros Hm. simpl. unfold try_catch.
  destruct (Hm w) as [(evs & Ht & HP) Hexit].
  destruct (m w) as [[[]|e|c] w1]; simpl in *.
  - split; [by left|]. exists evs. split; [done|].
    eapply Forall_impl; [exact HP|]. by left.
  - split; [by right|]. exists (evs ++ [ConsoleError label e]).
    split; [by rewrite Ht, app_assoc|].
    apply Forall_app. split.
    + eapply Forall_impl; [exact HP|]. by left.
    + constructor; [|constructor]. right. by exists e.
  - by destruct (Hexit c).
Qed.

Lemma state_writes_phase evs : Forall phase_event evs → state_writes evs = [].
Proof.
  induction 1 as [|ev evs Hev _ IH]; [done|].
  unfold state_writes in *. rewrite filter_cons_False; [done|].
  unfold phase_event in Hev. apply andb_prop_elim in Hev as [_ Hev].
  destruct (is_state_write ev); [done|by intros []].
Qed.

Lemma state_writes_tame {A} (m : M W A) (w : World W) :
  tame phase_event m →
  state_writes (trace (m w).2) = state_writes (trace w).
Proof.
  intros Hm. destruct (Hm w) as [(evs & -> & HP) _].
  unfold state_writes at 1. rewrite filter_app.
  fold (state_writes evs). by rewrite (state_writes_phase evs HP), app_nil_r.
Qed.

End RunFacts.

(** X1. Whatever the collaborators answer, the implement command either
    returns or ends the process with exit code 1: it never throws to its
    caller and never exits with another code. *)
Theorem implementCommand_outcome :
  ∀ (W : Type) (R : Runtime W) options config featureOrder (w : World W),
    (implementCommand options config featureOrder w).1 = Return tt ∨
    (implementCommand options config featureOrder w).1 = Exit 1.
Proof.
  intros W R options config featureOrder w. unfold implementCommand.
  eapply try_catch_exit. apply implement_body_tame.
Qed.

(** X2. Every event that a run of the implement command adds to the trace
    is a worktree creation from the base branch main, one of the tmux
    commands has-session, new-session, split-window, select-layout,
    rename-window and send-keys, a package installation, the creation of
    the directory .maestro, a file write, the 100 ms delay or a console
    message.  So no run kills a tmux session, deletes a worktree, or
    creates a worktree from a feature's own base. *)
Theorem implementCommand_vocabulary :
  ∀ (W : Type) (R : Runtime W) options config featureOrder (w : World W),
    ∃ evs,
      trace (implementCommand options config featureOrder w).2 = trace w ++ evs ∧
      Forall run_event evs ∧
      (∀ args, Called (Tmux ("kill-session" :: args)) ∉ evs) ∧
      (∀ branch force, Called (GitDeleteWorktree branch force) ∉ evs) ∧
      (∀ branch baseBranch,
         Called (GitCreateWorktree branch baseBranch) ∈ evs → baseBranch = "main").
Proof.
  intros W R options config featureOrder w. unfold implementCommand.
  destruct (try_catch_exit run_event "Implementation failed:" _ w
              (implement_body_tame options config featureOrder))
    as [_ (evs & Ht & HP)].
  assert (Forall run_event evs) as Hrun.
  { eapply Forall_impl; [exact HP|]. by intros ev [?|[e ->]]. }
  exists evs. rewrite Forall_forall in Hrun. split_and!; [done| | | |].
  - by apply Forall_forall.
  - intros args Hin. by apply Hrun in Hin.
  - intros branch force Hin. by apply Hrun in Hin.
  - intros branch baseBranch Hin. apply Hrun in Hin. simpl in Hin.
    by apply Is_true_true, String.eqb_eq in Hin.
Qed.

(** X3. When the workspaces are provisioned and a session step then
    throws, the command reports the error and exits with code 1 without
    any request for the state directory or the state document, and
    without deleting a worktree: the run leaves no persisted state. *)
Theorem session_failure_not_persisted :
  ∀ (W : Type) (R : Runtime W) options config featureOrder
    (w w1 w2 w3 : World W) paths e,
    createWorktrees (orderedFeatures config featureOrder) "main"
      (negb (sequential options) && default true (settings_parallel config)) w
      = (Return paths, w1) →
    (if negb (skipDeps options) then installDependencies paths else mret tt) w1
      = (Return tt, w2) →
    buildSessions (orderedFeatures config featureOrder) paths w2 = (Throw e, w3) →
    let run := implementCommand options config featureOrder w in
    run = (Exit 1, mkWorld (outside w3)
                     (trace w3 ++ [ConsoleError "Implementation failed:" e])) ∧
    state_writes (trace run.2) = state_writes (trace w) ∧
    deletions (trace run.2) = deletions (trace w).
Proof.
  intros W R options config featureOrder w w1 w2 w3 paths e H1 H2 H3. simpl.
  assert (implementCommand options config featureOrder w
          = (Exit 1, mkWorld (outside w3)
                       (trace w3 ++ [ConsoleError "Implementation failed:" e])))
    as Hrun.
  { unfold implementCommand, try_catch. simpl.
    rewrite run_bind, H1. rewrite run_bind, H2. rewrite run_bind, H3.
    reflexivity. }
  split; [done|]. split.
  - rewrite Hrun. simpl. unfold state_writes at 1. rewrite filter_app. simpl.
    rewrite app_nil_r. fold (state_writes (trace w3)).
    pose proof (state_writes_tame _ w2 (buildSessions_tame
      (orderedFeatures config featureOrder) paths)) as Hb. rewrite H3 in Hb.
    assert (state_writes (trace w2) = state_writes (trace w1)) as Hi.
    { destruct (negb (skipDeps options)).
      - pose proof (state_writes_tame _ w1 (installDependencies_tame paths)) as Hi.
        by rewrite H2 in Hi.
      - by injection H2 as <-. }
    pose proof (state_writes_tame _ w (createWorktrees_tame
      (orderedFeatures config featureOrder)
      (negb (sequential options) && default true (settings_parallel config))))
      as Hc. rewrite H1 in Hc. simpl in *. congruence.
  - apply implementCommand_no_deletion.
Qed.

Lemma session_failure_not_persisted_witness :
  let f := mkFeatureConfig "auth" "login" (Some "main") None
             [mkSessionConfig "dev" 1 None ["vim"; "npm test"]] None None [] in
  let w := Sim.start Sim.initial in
  let run := implementCommand (mkOptions true true) (mkConfig (Some [f]) None)
               ["auth"] w in
  run.1 = Exit 1 ∧
  Sim.worktrees (outside run.2) = ["auth"] ∧
  Sim.files (outside run.2) = [] ∧
  state_writes (trace run.2) = state_writes (trace w) ∧
  deletions (trace run.2) = deletions (trace w).
Proof.
  intros f w run.
  destruct (session_failure_not_persisted _ _ (mkOptions true true)
              (mkConfig (Some [f]) None) ["auth"] w
              (createWorktrees [f] "main" false w).2
              (createWorktrees [f] "main" false w).2
              (buildSessions [f] [("auth", Sim.worktree_dir "auth")]
                 (createWorktrees [f] "main" false w).2).2
              [("auth", Sim.worktree_dir "auth")]
              (mkError "can't find pane"))
    as (Hrun & Hs & Hd); [by vm_compute..|].
  split_and!; [by vm_compute|by vm_compute|by vm_compute|exact Hs|exact Hd].
Defined.

(** ** Dependency installation *)

(** X4. Installing dependencies always returns, and its events are exactly
    those of [install_events]: for each worktree in turn, nothing when no
    package manager is detected there, else one installation request in
    that worktree, followed by the warning that names the feature when the
    request is rejected.  A rejected installation never aborts the run. *)
Theorem installDependencies_returns :
  ∀ (W : Type) (R : Runtime W) worktreePaths (w : World W),
    let evs := install_events (outside w) worktreePaths in
    installDependencies worktreePaths w =
      (Return tt, mkWorld (replay (outside w) evs) (trace w ++ evs)).
Proof.
  intros W R worktreePaths. unfold installDependencies.
  induction worktreePaths as [|[f p] paths IH]; intros w.
  { simpl. rewrite app_nil_r. by destruct w. }
  cbn [for_each install_events]. rewrite run_bind.
  assert ((packageManager ← read (detectPackageManager p);
           if truthy packageManager
           then try_catch
                  (call (Install (default "" packageManager) p);; mret tt)
                  (λ _, emit (ConsoleWarn ("Failed to install deps for " +:+ f)))
           else mret tt) w
          = (Return tt,
             mkWorld (replay (outside w) (install_step (outside w) (f, p)))
                     (trace w ++ install_step (outside w) (f, p)))) as ->.
  { rewrite run_bind. unfold install_step. simpl.
    destruct (truthy (detectPackageManager p (outside w))).
    2:{ simpl. rewrite app_nil_r. by destruct w. }
    unfold try_catch. rewrite run_bind, run_call.
    destruct (answer _ (outside w)) as [[e|v] o] eqn:Ha; simpl;
      rewrite Ha; simpl; [|done].
    unfold emit. simpl. by rewrite <-app_assoc. }
  rewrite IH. simpl. by rewrite replay_app, app_assoc.
Qed.

(** Two worktrees with a package manager, of which the first installation
    is rejected: the warning follows it and the second still runs. *)
Example installDependencies_rejected_then_accepted :
  let R := {| answer := λ c (o : nat),
                match c with
                | Install _ "/wt/auth" => (inl (mkError "ENOENT"), S o)
                | _ => (inr "", S o)
                end;
              env_SHELL := None;
              now_toISOString := λ _, "";
              detectPackageManager := λ _ _, Some "pnpm";
              claudeMd_text := λ _ _, "";
              JSON_stringify := λ _, "";
              JSON_parse := λ _, inr None |} in
  installDependencies (W := nat) [("auth", "/wt/auth"); ("api", "/wt/api")]
    (mkWorld 0 [])
  = (Return tt,
     mkWorld 2 [Called (Install "pnpm" "/wt/auth");
                ConsoleWarn "Failed to install deps for auth";
                Called (Install "pnpm" "/wt/api")]).
Proof. reflexivity. Qed.

(** ** Workspace provisioning *)

Lemma creations_app t1 t2 : creations (t1 ++ t2) = creations t1 ++ creations t2.
Proof. apply filter_app. Qed.

Lemma creations_requests baseBranch fs :
  creations (map (create_request baseBranch) fs) = map (create_request baseBranch) fs.
Proof.
  induction fs as [|f fs IH]; [done|]. simpl. unfold creations in *.
  rewrite filter_cons_True by done. by rewrite IH.
Qed.

Lemma map_get_set_eq {V} k (v : V) m : map_get k (map_set k v m) = Some v.
Proof.
  induction m as [|[k' v'] m IH]; simpl.
  - by rewrite String.eqb_refl.
  - destruct (String.eqb k' k) eqn:Hk; simpl.
    + by rewrite String.eqb_refl.
    + by rewrite Hk.
Qed.

Lemma map_get_set_ne {V} k k' (v : V) m :
  k ≠ k' → map_get k' (map_set k v m) = map_get k' m.
Proof.
  intros Hne. induction m as [|[k0 v0] m IH]; simpl.
  - by destruct (String.eqb_spec k k').
  - destruct (String.eqb_spec k0 k) as [->|Hk]; simpl.
    + by destruct (String.eqb_spec k k').
    + by rewrite IH.
Qed.

Lemma map_set_keys {V} k k' (v : V) m :
  is_Some (map_get k' (map_set k v m)) ↔ k' = k ∨ is_Some (map_get k' m).
Proof.
  destruct (decide (k = k')) as [->|Hne].
  - rewrite map_get_set_eq. split; [by left|by eexists].
  - rewrite map_get_set_ne by done. split; [by right|]. by intros [->|?].
Qed.

Section ProvisionFacts.

Context {W : Type} `{Runtime W}.

Lemma createWorktree_run baseBranch feature paths (w : World W) :
  createWorktree baseBranch feature paths w =
  match answer (GitCreateWorktree (branch_of feature) baseBranch) (outside w) with
  | (inr path, o) =>
      (Return (map_set (name feature) path paths),
       mkWorld o (trace w ++ [create_request baseBranch feature]))
  | (inl e, o) =>
      (Throw e, mkWorld o (trace w ++ [create_request baseBranch feature;
                                       create_failure feature e]))
  end.
Proof.
  unfold createWorktree, try_catch, branch_of, create_request, create_failure.
  rewrite run_bind, run_call.
  destruct (answer _ (outside w)) as [[e|path] o]; simpl; [|done].
  rewrite run_bind. simpl. by rewrite <-app_assoc.
Qed.

Lemma sequential_trace baseBranch fs : ∀ paths (w : World W),
  match for_fold fs (createWorktree baseBranch) paths w with
  | (Return _, w') =>
      trace w' = trace w ++ map (create_request baseBranch) fs
  | (Throw e, w') =>
      ∃ k f, fs !! k = Some f ∧
        trace w' = trace w ++ map (create_request baseBranch) (take (S k) fs)
                   ++ [create_failure f e]
  | (Exit _, _) => False
  end.
Proof.
  induction fs as [|f fs IH]; intros paths w; simpl.
  { by rewrite app_nil_r. }
  rewrite run_bind, createWorktree_run.
  destruct (answer _ (outside w)) as [[e|path] o].
  - exists 0, f. split; [done|]. simpl.
    by destruct fs.
  - specialize (IH (map_set (name f) path paths)
                   (mkWorld o (trace w ++ [create_request baseBranch f]))).
    destruct (for_fold fs _ _ _) as [[paths'|e|c] w']; [| |done].
    + rewrite IH. simpl. by rewrite <-app_assoc.
    + destruct IH as (k & f' & Hk & Ht). exists (S k), f'. split; [done|].
      rewrite Ht. simpl. by rewrite <-!app_assoc.
Qed.

Lemma createWorktree_start_run baseBranch feature (w : World W) :
  createWorktree_start baseBranch feature w =
  (Return (answer (GitCreateWorktree (branch_of feature) baseBranch) (outside w)).1,
   mkWorld (answer (GitCreateWorktree (branch_of feature) baseBranch) (outside w)).2
           (trace w ++ [create_request baseBranch feature])).
Proof.
  unfold createWorktree_start, pending, try_catch, branch_of, create_request.
  rewrite run_bind, run_call.
  by destruct (answer _ (outside w)) as [[e|path] o].
Qed.

(** The two parts are the inner [createWorktree] cut at its [await]. *)
Lemma createWorktree_split baseBranch feature paths (w : World W) :
  createWorktree baseBranch feature paths w =
  (answered ← createWorktree_start baseBranch feature;
   createWorktree_resume feature answered paths) w.
Proof.
  rewrite run_bind, createWorktree_start_run, createWorktree_run.
  destruct (answer _ (outside w)) as [[e|path] o]; simpl; [|done].
  rewrite run_bind. simpl. by rewrite <-app_assoc.
Qed.

(** The first half of the parallel mode: one request per feature, in order,
    whatever the answers. *)
Lemma start_all_run baseBranch fs :
  ∀ (started : list (FeatureConfig * (JsError + string))) (w : World W),
  ∃ started' o,
    for_fold fs (λ feature started,
      answered ← createWorktree_start baseBranch feature;
      mret (started ++ [(feature, answered)])) started w
    = (Return (started ++ started'),
       mkWorld o (trace w ++ map (create_request baseBranch) fs)) ∧
    map fst started' = fs.
Proof.
  induction fs as [|f fs IH]; intros started w; simpl.
  { exists [], (outside w). rewrite !app_nil_r. by destruct w. }
  rewrite run_bind, run_bind, createWorktree_start_run. simpl.
  destruct (IH (started ++ [(f, (answer (GitCreateWorktree (branch_of f) baseBranch)
                                   (outside w)).1)])
               (mkWorld (answer (GitCreateWorktree (branch_of f) baseBranch)
                           (outside w)).2
                        (trace w ++ [create_request baseBranch f])))
    as (started' & o & -> & Hfst).
  eexists (_ :: started'), o. simpl. rewrite <-!app_assoc. simpl.
  split; [done|]. by rewrite Hfst.
Qed.

(** The second half: the answers are handled in order; nothing is
    requested, and the first rejection is reported and thrown. *)
Lemma resume_all_run (started : list (FeatureConfig * (JsError + string))) :
  ∀ paths (w w' : World W) r,
  for_fold started (λ '(feature, answered) paths,
    createWorktree_resume feature answered paths) paths w = (r, w') →
  creations (trace w') = creations (trace w) ∧
  (∀ c, r ≠ Exit c) ∧
  (∀ paths', r = Return paths' →
     ∀ k, is_Some (map_get k paths')
          ↔ is_Some (map_get k paths) ∨ k ∈ map (λ fa, name fa.1) started).
Proof.
  induction started as [|[f [e|path]] started IH]; intros paths w w' r; simpl.
  - intros [= <- <-]. split_and!; [done..|]. intros ? [= <-] k. set_solver.
  - rewrite run_bind, run_bind. simpl. intros [= <- <-]. simpl.
    split_and!; [|done..]. rewrite creations_app. simpl. apply app_nil_r.
  - rewrite run_bind. simpl. intros (Ht & Hexit & Hkeys)%IH.
    split_and!; [done..|]. intros paths' Hr k.
    rewrite (Hkeys _ Hr k), map_set_keys. set_solver.
Qed.

Lemma parallel_trace baseBranch fs (w w' : World W) r :
  promise_all fs baseBranch w = (r, w') →
  creations (trace w') = creations (trace w) ++ map (create_request baseBranch) fs ∧
  (∀ c, r ≠ Exit c) ∧
  (∀ paths, r = Return paths →
     ∀ k, is_Some (map_get k paths) ↔ k ∈ map name fs).
Proof.
  unfold promise_all. rewrite run_bind.
  destruct (start_all_run baseBranch fs [] w) as (started & o & -> & Hfst).
  simpl. intros (Ht & Hexit & Hkeys)%resume_all_run. simpl in Ht.
  split_and!; [|done|].
  - by rewrite Ht, creations_app, creations_requests.
  - intros paths Hr k. rewrite (Hkeys _ Hr k), <-Hfst, <-list_fmap_compose.
    simpl. split; [by intros [[? [=]]|?]|by right].
Qed.

End ProvisionFacts.

(** Three features of which git refuses the second, created in parallel:
    all three requests are made before the failure is reported. *)
Example createWorktrees_parallel_failure :
  let fs := [Resolver.plain_feature "f1" []; Resolver.plain_feature "f2" [];
             Resolver.plain_feature "f3" []] in
  let run := createWorktrees fs "main" true (Sim.start (Sim.mkSim ["f2"] [] [] [] [])) in
  run.1 = Throw (mkError "fatal: cannot create worktree f2") ∧
  Sim.worktrees (outside run.2) = ["f1"; "f3"] ∧
  trace run.2 =
    [Called (GitCreateWorktree "f1" "main");
     Called (GitCreateWorktree "f2" "main");
     Called (GitCreateWorktree "f3" "main");
     ConsoleError "Failed to create worktree for f2"
       (mkError "fatal: cannot create worktree f2")].
Proof. by vm_compute. Qed.

(** X5. Sequential provisioning requests the worktrees in the order of the
    features and stops at the first rejection: when it returns it has
    requested one worktree per feature and nothing else; when it throws,
    the rejected request is the last one, followed only by the report of
    the failure on the console.  It never ends the process. *)
Theorem createWorktrees_sequential :
  ∀ (W : Type) (R : Runtime W) features baseBranch (w : World W),
    match createWorktrees features baseBranch false w with
    | (Return _, w') =>
        trace w' = trace w ++ map (create_request baseBranch) features
    | (Throw e, w') =>
        ∃ k f, features !! k = Some f ∧
          trace w' = trace w
            ++ map (create_request baseBranch) (take (S k) features)
            ++ [create_failure f e]
    | (Exit _, _) => False
    end.
Proof. intros W R features baseBranch w. apply sequential_trace. Qed.

(** X6. Parallel provisioning requests a worktree for every feature, in
    the order of the features, whether or not some of the requests are
    rejected, and never ends the process. *)
Theorem createWorktrees_parallel :
  ∀ (W : Type) (R : Runtime W) features baseBranch (w : World W),
    creations (trace (createWorktrees features baseBranch true w).2)
      = creations (trace w) ++ map (create_request baseBranch) features ∧
    ∀ c, (createWorktrees features baseBranch true w).1 ≠ Exit c.
Proof.
  intros W R features baseBranch w. unfold createWorktrees.
  destruct (promise_all _ _ w) as [r w'] eqn:Hrun.
  by apply parallel_trace in Hrun as (? & ? & _).
Qed.

Section ProvisionResult.

Context {W : Type} `{Runtime W}.

Lemma sequential_keys baseBranch fs : ∀ paths (w w' : World W) paths',
  for_fold fs (createWorktree baseBranch) paths w = (Return paths', w') →
  ∀ k, is_Some (map_get k paths') ↔ is_Some (map_get k paths) ∨ k ∈ map name fs.
Proof.
  induction fs as [|f fs IH]; intros paths w w' paths'; simpl.
  { intros [= <- _] k. set_solver. }
  rewrite run_bind, createWorktree_run.
  destruct (answer _ (outside w)) as [[e|path] o]; [done|].
  intros Hrun k. rewrite (IH _ _ _ _ Hrun k), map_set_keys. set_solver.
Qed.

End ProvisionResult.

(** X7. When provisioning returns, in either mode, the map it returns has a
    path for exactly the names of the features it was given. *)
Theorem createWorktrees_paths :
  ∀ (W : Type) (R : Runtime W) features baseBranch parallel (w w' : World W) paths,
    createWorktrees features baseBranch parallel w = (Return paths, w') →
    ∀ k, is_Some (map_get k paths) ↔ k ∈ map name features.
Proof.
  intros W R features baseBranch parallel w w' paths. unfold createWorktrees.
  destruct parallel.
  - intros Hrun k. apply parallel_trace in Hrun as (_ & _ & Hk). by apply Hk.
  - intros Hk k. rewrite (sequential_keys _ _ _ _ _ _ Hk). simpl.
    split; [by intros [[? [=]]|?]|by right].
Qed.

Lemma createWorktrees_paths_witness :
  let fs := [Resolver.plain_feature "auth" []; Resolver.plain_feature "api" ["auth"]] in
  let run := createWorktrees fs "main" true (Sim.start Sim.initial) in
  run.1 = Return [("auth", Sim.worktree_dir "auth"); ("api", Sim.worktree_dir "api")] ∧
  ∀ k, is_Some (map_get k [("auth", Sim.worktree_dir "auth");
                           ("api", Sim.worktree_dir "api")])
       ↔ k ∈ ["auth"; "api"].
Proof.
  split; [by vm_compute|].
  refine (createWorktrees_paths _ _
            [Resolver.plain_feature "auth" []; Resolver.plain_feature "api" ["auth"]]
            "main" true (Sim.start Sim.initial) (mkWorld _ _) _ _).
  by vm_compute.
Defined.

(** ** More on the session builder *)

(** X8. When no session with the id exists and the builder returns, its
    requests are, in this order: the has-session check, new-session, the
    splits for the pane indices from 1 on, select-layout if and only if a
    layout is set, and rename-window last. *)
Theorem createTmuxSession_creation_trace :
  ∀ (W : Type) (R : Runtime W) feature session worktreePath (w w' : World W)
    id e o,
    answer (Tmux ["has-session"; "-t"; getSessionName feature (sc_name session)])
           (outside w) = (inl e, o) →
    createTmuxSession feature session worktreePath w = (Return id, w') →
    trace w' = trace w
      ++ creation_requests (shell (W := W)) id session worktreePath.
Proof.
  intros W R feature session worktreePath w w' id e o Ha Hrun.
  pose proof (createTmuxSession_returns _ _ _ _ _ _ Hrun) as ->.
  revert Hrun. unfold createTmuxSession. rewrite run_bind.
  unfold try_catch at 1. rewrite run_bind, (run_call_rejected _ _ _ _ Ha).
  rewrite run_ret.
  intros (v1 & w1 & [_ Hnew]%call_returned & Hrun)%bind_returned.
  apply bind_returned in Hrun as ([] & w2 & Hloop & Hrun).
  apply (for_each_calls _ (split_call _ worktreePath (layout session))) in Hloop.
  apply bind_returned in Hrun as (u3 & w3 & Hlayout & Hrun).
  apply bind_returned in Hrun as (v4 & w4 & [_ Hren]%call_returned & Hret).
  assert (w4 = w') as -> by (by injection Hret).
  unfold creation_requests. rewrite Hren. simpl in Hnew.
  destruct (layout session) as [l|].
  - apply bind_returned in Hlayout as (v & w5 & [_ Hsel]%call_returned & Hret').
    assert (w5 = w3) as -> by (by injection Hret').
    rewrite Hsel, Hloop, Hnew. by rewrite <-!app_assoc.
  - assert (w2 = w3) as -> by (by injection Hlayout).
    rewrite Hloop, Hnew. by rewrite <-!app_assoc.
Qed.

Lemma createTmuxSession_creation_trace_witness :
  let w := Sim.start Sim.initial in
  let w' := (createTmuxSession "auth" Sim.backend "/wt" w).2 in
  trace w' = trace w ++
    [Called (Tmux ["has-session"; "-t"; "auth-backend"]);
     Called (Tmux ["new-session"; "-d"; "-s"; "auth-backend"; "-c"; "/wt";
                   "/bin/zsh"; "-l"]);
     Called (Tmux ["split-window"; "-t"; "auth-backend"; "-c"; "/wt"; "-h";
                   "/bin/zsh"; "-l"]);
     Called (Tmux ["select-layout"; "-t"; "auth-backend"; "even-horizontal"]);
     Called (Tmux ["rename-window"; "-t"; "auth-backend"; "backend"])].
Proof.
  refine (createTmuxSession_creation_trace _ _ "auth" Sim.backend "/wt"
            (Sim.start Sim.initial) _ "auth-backend"
            (mkError "can't find session") Sim.initial _ _); by vm_compute.
Defined.

Lemma string_append_assoc a b c : (a +:+ b) +:+ c = a +:+ (b +:+ c).
Proof.
  induction a as [|x a IH]; [done|].
  change (String x ((a +:+ b) +:+ c) = String x (a +:+ (b +:+ c))). by f_equal.
Qed.

(** The template literal of the session id does not tell where the feature
    name ends. *)
Lemma dashed_assoc feature middle session :
  dashed (feature +:+ "-" +:+ middle) session
  = dashed feature (middle +:+ "-" +:+ session).
Proof. unfold dashed. by rewrite !string_append_assoc. Qed.

(** X9. A feature f-g with a session s and a feature f with a session g-s
    have the same session id.  So when the session of the first exists,
    the builder called for the second returns that id after the
    has-session check alone: the second session is never created,
    whatever its pane count, layout and working directory. *)
Theorem createTmuxSession_name_collision :
  ∀ (W : Type) (R : Runtime W) feature middle (session1 session2 : SessionConfig)
    path1 path2 (w w1 : World W) id v o,
    sc_name session2 = middle +:+ "-" +:+ sc_name session1 →
    createTmuxSession (feature +:+ "-" +:+ middle) session1 path1 w
      = (Return id, w1) →
    answer (Tmux ["has-session"; "-t"; id]) (outside w1) = (inr v, o) →
    createTmuxSession feature session2 path2 w1 =
      (Return id, mkWorld o (trace w1 ++ [Called (Tmux ["has-session"; "-t"; id])])).
Proof.
  intros W R feature middle session1 session2 path1 path2 w w1 id v o Hname
    Hfirst Ha.
  apply createTmuxSession_returns in Hfirst as ->.
  assert (getSessionName (feature +:+ "-" +:+ middle) (sc_name session1)
          = getSessionName feature (sc_name session2)) as Hid.
  { unfold getSessionName. by rewrite Hname, dashed_assoc. }
  rewrite Hid in *. exact (createTmuxSession_existing _ _ _ _ v o Ha).
Qed.

Lemma createTmuxSession_name_collision_witness :
  let s1 := mkSessionConfig "dev" 2 None ["npm run dev"] in
  let s2 := mkSessionConfig "v2-dev" 4 (Some Tiled) ["vim"] in
  let w1 := (createTmuxSession "api-v2" s1 "/wt/api-v2" (Sim.start Sim.initial)).2 in
  Sim.tmux_sessions (outside w1) = [("api-v2-dev", 2)] ∧
  createTmuxSession "api" s2 "/wt/api" w1 =
    (Return "api-v2-dev",
     mkWorld (outside w1)
       (trace w1 ++ [Called (Tmux ["has-session"; "-t"; "api-v2-dev"])])).
Proof.
  split; [by vm_compute|].
  refine (createTmuxSession_name_collision _ _ "api" "v2"
            (mkSessionConfig "dev" 2 None ["npm run dev"])
            (mkSessionConfig "v2-dev" 4 (Some Tiled) ["vim"])
            "/wt/api-v2" "/wt/api" (Sim.start Sim.initial) _ "api-v2-dev" "" _
            _ _ _); by vm_compute.
Defined.

(** ** More on the prompt injector *)

Section InjectorEdge.

Context {W : Type} `{Runtime W}.

Lemma for_each_empty_prompts sessionName (h : nat → nat) prompts (w : World W) :
  Forall (λ p, p = "") prompts →
  for_each (imap (λ i p, (h i, p)) prompts) (inject_body sessionName) w
  = (Return tt, w).
Proof.
  intros Hall. revert h. induction Hall as [|p ps -> _ IH]; intros h; [done|].
  simpl. rewrite run_bind. simpl. exact (IH (h ∘ S)).
Qed.

End InjectorEdge.

(** X10. When every prompt is empty, and so when there is no prompt at
    all, the injector returns without a single request and leaves the
    world as it was. *)
Theorem injectPrompts_nothing_to_send :
  ∀ (W : Type) (R : Runtime W) sessionName prompts (w : World W),
    Forall (λ p, p = "") prompts →
    injectPrompts sessionName prompts w = (Return tt, w).
Proof.
  intros W R sessionName prompts w Hall. rewrite injectPrompts_loop.
  by apply (for_each_empty_prompts sessionName id).
Qed.

Lemma injectPrompts_nothing_to_send_witness :
  injectPrompts "auth-dev" [""; ""] (Sim.start Sim.initial)
  = (Return tt, Sim.start Sim.initial).
Proof.
  apply injectPrompts_nothing_to_send. by repeat constructor.
Defined.

(** ** More on session ids *)

Lemma replace_outside_class_clean s :
  all_chars in_class s = true → replace_outside_class s = s.
Proof.
  induction s as [|c s IH]; [done|]. simpl.
  intros [Hc Hs]%andb_true_iff. by rewrite Hc, IH.
Qed.

Lemma substring_0_short n s : String.length s ≤ n → substring 0 n s = s.
Proof.
  revert n. induction s as [|c s IH]; intros [|n] Hn; simpl in *; try done.
  - lia.
  - rewrite IH; [done|lia].
Qed.

(** X11. A feature name and a session name made of letters, digits and
    dashes whose concatenation with a dash has at most 30 characters give
    exactly that concatenation as the session id. *)
Theorem getSessionName_clean :
  ∀ feature session,
    all_chars in_class (dashed feature session) = true →
    String.length (dashed feature session) ≤ 30 →
    getSessionName feature session = dashed feature session.
Proof.
  intros feature session Hclean Hshort. unfold getSessionName.
  rewrite replace_outside_class_clean by done. by apply substring_0_short.
Qed.

Lemma getSessionName_clean_witness :
  getSessionName "test-feature" "backend" = "test-feature-backend".
Proof.
  apply (getSessionName_clean "test-feature" "backend"); [by vm_compute|].
  vm_compute. lia.
Defined.

(** ** Reading tmux listings *)

Lemma free_of_cons c x s : free_of c (String x s) ↔ x ≠ c ∧ free_of c s.
Proof.
  unfold free_of. simpl. rewrite not_elem_of_cons. naive_solver.
Qed.

Lemma split_on_free sep s : free_of sep s → split_on sep s = [s].
Proof.
  induction s as [|x s IH]; [done|]. intros [Hx Hs]%free_of_cons. simpl.
  rewrite (proj2 (Ascii.eqb_neq x sep)) by done. by rewrite IH.
Qed.

Lemma split_on_sep sep a b :
  free_of sep a → split_on sep (a +:+ String sep b) = a :: split_on sep b.
Proof.
  induction a as [|x a IH]; intros Ha.
  - change (split_on sep (String sep b) = "" :: split_on sep b). simpl.
    by rewrite Ascii.eqb_refl.
  - apply free_of_cons in Ha as [Hx Ha].
    change (split_on sep (String x (a +:+ String sep b))
            = String x a :: split_on sep b). simpl.
    rewrite (proj2 (Ascii.eqb_neq x sep)) by done. by rewrite IH.
Qed.

Lemma concat_cons sep x y ys :
  String.concat sep (x :: y :: ys) = x +:+ sep +:+ String.concat sep (y :: ys).
Proof. reflexivity. Qed.

(** Splitting what was joined with newlines gives the lines back. *)
Lemma split_on_concat lines :
  lines ≠ [] → Forall (free_of newline) lines →
  split_on newline (String.concat (String newline "") lines) = lines.
Proof.
  intros Hne Hfree. induction Hfree as [|l ls Hl Hls IH]; [done|].
  destruct ls as [|l' ls].
  - by apply split_on_free.
  - rewrite concat_cons.
    change (String newline "" +:+ String.concat (String newline "") (l' :: ls))
      with (String newline (String.concat (String newline "") (l' :: ls))).
    rewrite split_on_sep by done. by rewrite IH.
Qed.

Lemma output_lines_concat lines :
  Forall (λ l, l ≠ "" ∧ free_of newline l) lines →
  output_lines (String.concat (String newline "") lines) = lines.
Proof.
  intros Hall. unfold output_lines. destruct lines as [|l ls]; [done|].
  rewrite split_on_concat; [|done|by eapply Forall_impl; [exact Hall|intros ? []]].
  clear -Hall. induction Hall as [|x xs [Hx _] _ IH]; [done|].
  rewrite filter_cons_True by done. by rewrite IH.
Qed.

Lemma prefix_nil s : String.prefix "" s = true.
Proof. by destruct s. Qed.

Lemma prefix_cons x s1 y s2 :
  String.prefix (String x s1) (String y s2) = Ascii.eqb x y && String.prefix s1 s2.
Proof.
  change (String.prefix (String x s1) (String y s2))
    with (if Ascii.ascii_dec x y then String.prefix s1 s2 else false).
  destruct (Ascii.ascii_dec x y) as [->|Hne].
  - by rewrite Ascii.eqb_refl.
  - by rewrite (proj2 (Ascii.eqb_neq x y)).
Qed.

(** A line of the status listing starts with [name:] exactly when it is
    the line of the session called [name]. *)
Lemma prefix_status_line name n a :
  free_of ":" name → free_of ":" n →
  String.prefix (name +:+ ":") (n +:+ ":" +:+ a) = bool_decide (name = n).
Proof.
  revert n. induction name as [|x name IH]; intros [|y n] Hname Hn.
  - rewrite bool_decide_eq_true_2 by done.
    change (String.prefix (String ":" "") (String ":" a) = true).
    by rewrite prefix_cons, prefix_nil.
  - apply free_of_cons in Hn as [Hy _].
    rewrite bool_decide_eq_false_2 by done.
    change (String.prefix (String ":" "") (String y (n +:+ ":" +:+ a)) = false).
    rewrite prefix_cons, (proj2 (Ascii.eqb_neq ":" y)); [done|by intros <-].
  - apply free_of_cons in Hname as [Hx _].
    rewrite bool_decide_eq_false_2 by done.
    change (String.prefix (String x (name +:+ ":")) (String ":" a) = false).
    by rewrite prefix_cons, (proj2 (Ascii.eqb_neq x ":")).
  - apply free_of_cons in Hname as [_ Hname].
    apply free_of_cons in Hn as [_ Hn].
    change (String.prefix (String x (name +:+ ":")) (String y (n +:+ ":" +:+ a))
            = bool_decide (String x name = String y n)).
    rewrite prefix_cons, IH by done.
    destruct (Ascii.eqb_spec x y) as [->|Hxy]; simpl.
    + apply bool_decide_ext. naive_solver.
    + rewrite bool_decide_eq_false_2; [done|]. by intros [= ? ?].
Qed.

Lemma find_status_line name (ss : list (string * string)) :
  free_of ":" name → Forall (λ '(n, _), free_of ":" n) ss →
  find (λ line, String.prefix (name +:+ ":") line)
       (map (λ '(n, a), n +:+ ":" +:+ a) ss)
  = (λ '(n, a), n +:+ ":" +:+ a)
    <$> find (λ '(n, _), bool_decide (n = name)) ss.
Proof.
  intros Hname Hall. induction Hall as [|[n a] ss Hn _ IH]; [done|].
  simpl. rewrite prefix_status_line by done.
  rewrite (bool_decide_ext (name = n) (n = name)) by naive_solver.
  destruct (bool_decide (n = name)); [done|]. exact IH.
Qed.

Lemma status_line_attached n a :
  free_of ":" n → free_of ":" a →
  split_on ":" (n +:+ ":" +:+ a) !! 1 = Some a.
Proof.
  intros Hn Ha.
  change (":" +:+ a) with (String ":" a).
  rewrite split_on_sep by done. by rewrite split_on_free.
Qed.

Lemma free_of_app c a b : free_of c (a +:+ b) ↔ free_of c a ∧ free_of c b.
Proof.
  unfold free_of. rewrite list_ascii_of_string_app, not_elem_of_app. done.
Qed.

Lemma status_lines (ss : list (string * string)) :
  Forall listed ss →
  output_lines (status_listing ss) = map (λ '(n, a), n +:+ ":" +:+ a) ss.
Proof.
  intros Hall. apply output_lines_concat. apply Forall_fmap.
  eapply Forall_impl; [exact Hall|]. intros [n a] (Hn & Hn' & Ha & Ha'). simpl in *.
  split.
  - destruct n; [|done]. by vm_compute.
  - rewrite !free_of_app. split_and!; [done| |done].
    unfold free_of. by vm_compute; intros ?%list_elem_of_singleton.
Qed.

Section ListingFacts.

Context {W : Type} `{Runtime W}.

Lemma getTmuxSessionStatus_listed name ss (w : World W) o :
  answer (Tmux ["list-sessions"; "-F"; status_format]) (outside w)
    = (inr (status_listing ss), o) →
  free_of ":" name → Forall listed ss →
  (getTmuxSessionStatus name w).1 = Return (listed_status name ss).
Proof.
  intros Ha Hname Hall. unfold getTmuxSessionStatus, try_catch.
  rewrite run_bind, (run_call_ok _ _ _ _ Ha). simpl.
  rewrite status_lines by done.
  rewrite find_status_line;
    [|done|by eapply Forall_impl; [exact Hall|intros [??] [? _]]].
  unfold listed_status.
  destruct (find _ ss) as [[n a]|] eqn:Hfind; simpl; [|done].
  apply find_some in Hfind as [Hin _].
  apply list_elem_of_In in Hin. rewrite Forall_forall in Hall.
  destruct (Hall _ Hin) as (Hn & _ & Hacolon & _). simpl in *.
  rewrite status_line_attached by done.
  rewrite (bool_decide_ext (Some a = Some "1") (a = "1")) by naive_solver.
  by destruct (bool_decide (a = "1")).
Qed.

End ListingFacts.

(** X12. The status of a session never throws: when tmux rejects the
    listing it is not-found.  On a listing of sessions (names and attached
    fields without colon and newline) it is decided by the first session
    whose name is exactly the name asked for, never by a session whose name
    merely starts with it: active when the attached field of that session
    is the text 1, inactive for any other field, not-found when there is
    no such session. *)
Theorem getTmuxSessionStatus_exact :
  (∀ (W : Type) (R : Runtime W) name (w : World W) e o,
     answer (Tmux ["list-sessions"; "-F"; status_format]) (outside w) = (inl e, o) →
     (getTmuxSessionStatus name w).1 = Return StatusNotFound) ∧
  (∀ (W : Type) (R : Runtime W) name ss (w : World W) o,
     answer (Tmux ["list-sessions"; "-F"; status_format]) (outside w)
       = (inr (status_listing ss), o) →
     free_of ":" name → Forall listed ss →
     (getTmuxSessionStatus name w).1 = Return (listed_status name ss)).
Proof.
  split.
  - intros W R name w e o Ha. unfold getTmuxSessionStatus, try_catch.
    by rewrite run_bind, (run_call_rejected _ _ _ _ Ha).
  - intros W R name ss w o. apply getTmuxSessionStatus_listed.
Qed.

Lemma free_of_decide c s :
  bool_decide (c ∉ list_ascii_of_string s) = true → free_of c s.
Proof. intros Hb. by apply bool_decide_eq_true in Hb. Qed.

Lemma getTmuxSessionStatus_exact_witness :
  let w := Listing.start
             (Listing.mkListing
                (Sim.mkSim [] [] [("auth-dev-2", 2); ("auth-dev", 3); ("api", 1)] [] [])
                [("auth-dev-2", 1); ("auth-dev", 2)]) in
  (getTmuxSessionStatus "auth-dev" w).1 = Return StatusInactive ∧
  (getTmuxSessionStatus "auth-dev-2" w).1 = Return StatusActive ∧
  (getTmuxSessionStatus "auth" w).1 = Return StatusNotFound.
Proof.
  intros w.
  assert (Forall listed [("auth-dev-2", "1"); ("auth-dev", "2"); ("api", "0")])
    as Hall.
  { repeat constructor; by apply free_of_decide. }
  split_and!.
  - refine (proj2 getTmuxSessionStatus_exact _ _ "auth-dev"
              [("auth-dev-2", "1"); ("auth-dev", "2"); ("api", "0")] w _ _ _ Hall);
      [by vm_compute|by apply free_of_decide].
  - refine (proj2 getTmuxSessionStatus_exact _ _ "auth-dev-2"
              [("auth-dev-2", "1"); ("auth-dev", "2"); ("api", "0")] w _ _ _ Hall);
      [by vm_compute|by apply free_of_decide].
  - refine (proj2 getTmuxSessionStatus_exact _ _ "auth"
              [("auth-dev-2", "1"); ("auth-dev", "2"); ("api", "0")] w _ _ _ Hall);
      [by vm_compute|by apply free_of_decide].
Defined.

Lemma replace_outside_class_colon_free s :
  free_of ":" (replace_outside_class s).
Proof.
  induction s as [|c s IH]; [by apply free_of_decide|].
  simpl. apply free_of_cons. split; [|done].
  destruct (in_class c) eqn:Hc; [|done]. by intros ->.
Qed.

(** X13. The status lookup is made with the session name recorded in the
    state.  When that name is longer than 30 characters and the sessions
    that tmux lists have names of at most 30 characters, as all the ids
    under which the builder creates sessions have, the lookup answers
    not-found even though the session of that feature exists under its
    shortened id. *)
Theorem long_session_name_not_found :
  ∀ (W : Type) (R : Runtime W) (f : FeatureConfig) (s : SessionConfig) ss
    (w : World W) o,
    30 < String.length (state_session_name f s) →
    answer (Tmux ["list-sessions"; "-F"; status_format]) (outside w)
      = (inr (status_listing ss), o) →
    Forall listed ss →
    Forall (λ entry, String.length entry.1 ≤ 30) ss →
    (getTmuxSessionStatus (state_session_name f s) w).1 = Return StatusNotFound.
Proof.
  intros W R f s ss w o Hlong Ha Hall Hshort.
  rewrite (proj2 getTmuxSessionStatus_exact _ _ _ ss w o Ha);
    [|apply replace_outside_class_colon_free|done].
  unfold listed_status.
  destruct (find _ ss) as [[n a]|] eqn:Hfind; [|done].
  apply find_some in Hfind as [Hin Hn].
  apply bool_decide_eq_true in Hn as ->.
  apply list_elem_of_In in Hin. rewrite Forall_forall in Hshort.
  apply Hshort in Hin. simpl in Hin. lia.
Qed.

Lemma long_session_name_not_found_witness :
  let s := mkSessionConfig "backend services" 2 None ["npm run dev"] in
  let f := mkFeatureConfig "user-authentication" "OAuth2" (Some "main") None
             [s] None None [] in
  let w1 := (createTmuxSession (name f) s "/wt" (Listing.start
               (Listing.mkListing Sim.initial []))).2 in
  Sim.tmux_sessions (Listing.sim (outside w1))
    = [("user-authentication-backend-se", 2)] ∧
  (getTmuxSessionStatus (state_session_name f s) w1).1 = Return StatusNotFound ∧
  (getTmuxSessionStatus (getSessionName (name f) (sc_name s)) w1).1
    = Return StatusInactive.
Proof.
  intros s f w1. split_and!; [by vm_compute| |by vm_compute].
  refine (long_session_name_not_found _ _ f s
            [("user-authentication-backend-se", "0")] w1 _ _ _ _ _).
  - vm_compute. lia.
  - by vm_compute.
  - repeat constructor; by apply free_of_decide.
  - constructor; [vm_compute; lia|constructor].
Defined.

Section RunningSessions.

Context {W : Type} `{Runtime W}.

Lemma getRunningOrchestraSessions_listed filter_ ns (w : World W) o :
  answer (Tmux ["list-sessions"; "-F"; name_format]) (outside w)
    = (inr (names_listing ns), o) →
  Forall (λ n, n ≠ "" ∧ free_of newline n) ns →
  (getRunningOrchestraSessions filter_ w).1 =
    Return (if truthy filter_
            then filter (λ n, includes (default "" filter_) n) ns
            else ns).
Proof.
  intros Ha Hall. unfold getRunningOrchestraSessions, try_catch.
  rewrite run_bind, (run_call_ok _ _ _ _ Ha). simpl.
  unfold names_listing. rewrite output_lines_concat by done.
  by destruct (truthy filter_).
Qed.

End RunningSessions.

(** X14. Listing the running sessions never throws: when tmux rejects the
    listing the result is empty.  On a listing of non-empty names it
    returns the names in the order listed, all of them without a filter or
    with the empty filter, and with a filter exactly those that contain the
    filter text. *)
Theorem getRunningOrchestraSessions_filtered :
  (∀ (W : Type) (R : Runtime W) filter_ (w : World W) e o,
     answer (Tmux ["list-sessions"; "-F"; name_format]) (outside w) = (inl e, o) →
     (getRunningOrchestraSessions filter_ w).1 = Return []) ∧
  (∀ (W : Type) (R : Runtime W) filter_ ns (w : World W) o,
     answer (Tmux ["list-sessions"; "-F"; name_format]) (outside w)
       = (inr (names_listing ns), o) →
     Forall (λ n, n ≠ "" ∧ free_of newline n) ns →
     (getRunningOrchestraSessions filter_ w).1 =
       Return (if truthy filter_
               then filter (λ n, includes (default "" filter_) n) ns
               else ns)).
Proof.
  split.
  - intros W R filter_ w e o Ha. unfold getRunningOrchestraSessions, try_catch.
    by rewrite run_bind, (run_call_rejected _ _ _ _ Ha).
  - intros W R filter_ ns w o. apply getRunningOrchestraSessions_listed.
Qed.

Lemma getRunningOrchestraSessions_filtered_witness :
  let w := Listing.start
             (Listing.mkListing
                (Sim.mkSim [] [] [("auth-dev", 2); ("api-dev", 3); ("notes", 1)] [] [])
                []) in
  (getRunningOrchestraSessions (Some "dev") w).1 = Return ["auth-dev"; "api-dev"] ∧
  (getRunningOrchestraSessions (Some "") w).1
    = Return ["auth-dev"; "api-dev"; "notes"] ∧
  (getRunningOrchestraSessions None (Listing.start (Listing.mkListing Sim.initial []))).1
    = Return [].
Proof.
  intros w.
  assert (Forall (λ n, n ≠ "" ∧ free_of newline n) ["auth-dev"; "api-dev"; "notes"])
    as Hall.
  { repeat constructor; try done; by apply free_of_decide. }
  split_and!.
  - rewrite (proj2 getRunningOrchestraSessions_filtered _ _ (Some "dev")
               ["auth-dev"; "api-dev"; "notes"] w (outside w)); [|by vm_compute|done].
    by vm_compute.
  - rewrite (proj2 getRunningOrchestraSessions_filtered _ _ (Some "")
               ["auth-dev"; "api-dev"; "notes"] w (outside w)); [|by vm_compute|done].
    by vm_compute.
  - refine (proj1 getRunningOrchestraSessions_filtered _ _ None _
              (mkError "no server running") (Listing.mkListing Sim.initial []) _).
    by vm_compute.
Defined.

(** ** The ordered features *)

Lemma find_name_Some n fs f :
  find (λ f, String.eqb (name f) n) fs = Some f → name f = n ∧ f ∈ fs.
Proof.
  intros [Hin Hn]%find_some. split; [by apply String.eqb_eq|].
  by apply list_elem_of_In.
Qed.

Lemma find_name_None n fs :
  find (λ f, String.eqb (name f) n) fs = None → n ∉ map name fs.
Proof.
  intros Hnone (f & -> & Hf)%list_elem_of_fmap.
  apply list_elem_of_In in Hf.
  pose proof (find_none _ _ Hnone f Hf) as Hne. simpl in Hne.
  by rewrite String.eqb_refl in Hne.
Qed.

(** X15. The features of a run are those of the configuration that the
    order names, in the order of the names: a name that no feature of the
    configuration carries is dropped without an error, and a configuration
    without a feature list gives no feature at all. *)
Theorem orderedFeatures_known :
  ∀ config featureOrder,
    map name (orderedFeatures config featureOrder)
      = filter (λ n, n ∈ map name (default [] (cfg_features config))) featureOrder ∧
    (∀ f, f ∈ orderedFeatures config featureOrder →
          f ∈ default [] (cfg_features config)) ∧
    (cfg_features config = None → orderedFeatures config featureOrder = []).
Proof.
  intros config featureOrder. unfold orderedFeatures.
  set (fs := default [] (cfg_features config)).
  assert (∀ f, f ∈ omap (λ n, find (λ f, String.eqb (name f) n) fs) featureOrder →
               f ∈ fs) as Hin.
  { intros f (n & _ & Hf)%list_elem_of_omap. by apply find_name_Some in Hf as [_ ?]. }
  split_and!; [|done|].
  - clear Hin. induction featureOrder as [|n order IH]; [done|]. simpl.
    destruct (find _ fs) as [f|] eqn:Hfind.
    + apply find_name_Some in Hfind as [<- Hf].
      rewrite filter_cons_True by (by apply list_elem_of_fmap_2).
      simpl. f_equal. apply IH.
    + apply find_name_None in Hfind. by rewrite filter_cons_False.
  - intros Hnone. subst fs. rewrite Hnone. simpl. clear Hin.
    by induction featureOrder as [|n order IH].
Qed.

(** ** The empty plan *)

(** X16. When the order names no feature of the configuration, a run
    creates nothing and, provided the directory and the file can be
    written, overwrites the state document with a state that has no
    feature. *)
Theorem implementCommand_empty_plan :
  ∀ (W : Type) (R : Runtime W) options config featureOrder (w : World W)
    v1 o1 v2 o2,
    orderedFeatures config featureOrder = [] →
    answer (Mkdir ".maestro") (outside w) = (inr v1, o1) →
    answer (WriteFile state_path
              (JSON_stringify
                 (mkOrchestraState (now_toISOString (outside w)) [] Active))) o1
      = (inr v2, o2) →
    implementCommand options config featureOrder w =
      (Return tt,
       mkWorld o2
         (trace w ++
          [Called (Mkdir ".maestro");
           Called (WriteFile state_path
                     (JSON_stringify
                        (mkOrchestraState (now_toISOString (outside w)) []
                                          Active)))])).
Proof.
  intros W R options config featureOrder w v1 o1 v2 o2 Hempty Hmk Hwr.
  unfold implementCommand, try_catch. simpl. rewrite Hempty.
  assert (createWorktrees [] "main"
            (negb (sequential options) && default true (settings_parallel config)) w
          = (Return [], w)) as Hc by (by destruct (_ && _)).
  rewrite run_bind, Hc. cbv beta iota. rewrite run_bind.
  assert ((if negb (skipDeps options) then installDependencies [] else mret tt) w
          = (Return tt, w)) as ->.
  { destruct (negb (skipDeps options)); reflexivity. }
  rewrite run_bind. simpl. unfold saveOrchestraState.
  rewrite run_bind. unfold read at 1. cbv beta iota.
  rewrite run_bind, (run_call_ok _ _ _ _ Hmk).
  rewrite run_bind. unfold buildState. simpl.
  rewrite (run_call_ok _ (mkWorld o1 _) _ _ Hwr). simpl.
  by rewrite <-app_assoc.
Qed.

Lemma implementCommand_empty_plan_witness :
  let w := Sim.start (Sim.mkSim [] ["auth"] [("auth-dev", 2)]
                        [(state_path, Sim.stringify (Sim.document ["auth"]))]
                        []) in
  let run := implementCommand (mkOptions false false) (mkConfig None None)
               ["auth"] w in
  run.1 = Return tt ∧
  Sim.files (outside run.2) = [(state_path, Sim.stringify (Sim.document []))] ∧
  trace run.2 = [Called (Mkdir ".maestro");
                 Called (WriteFile state_path (Sim.stringify (Sim.document [])))].
Proof.
  intros w run.
  pose proof (implementCommand_empty_plan _ _ (mkOptions false false)
                (mkConfig None None) ["auth"] w "" (outside w) ""
                (Sim.mkSim [] ["auth"] [("auth-dev", 2)]
                   [(state_path, Sim.stringify (Sim.document []))] [])
                eq_refl eq_refl eq_refl) as Hrun.
  subst run. rewrite Hrun. by vm_compute.
Defined.

(** ** Feature names and session ids *)

Lemma replace_outside_class_app a b :
  replace_outside_class (a +:+ b)
  = replace_outside_class a +:+ replace_outside_class b.
Proof.
  induction a as [|x a IH]; [done|].
  change (String (if in_class x then x else "-"%char)
                 (replace_outside_class (a +:+ b))
          = String (if in_class x then x else "-"%char)
                   (replace_outside_class a +:+ replace_outside_class b)).
  by rewrite IH.
Qed.

Lemma sanitize_name_char c :
  in_name_class c = true →
  (if in_class c then c else "-"%char) = (if Ascii.eqb c "_" then "-"%char else c).
Proof.
  unfold in_name_class. destruct (Ascii.eqb_spec c "_") as [->|Hc].
  - intros _. by vm_compute.
  - rewrite orb_false_r. by intros ->.
Qed.

(** X17. A feature name that the configuration schema accepts keeps its
    letters, digits and dashes in the session id; only its underscores
    become dashes.  The id of a session of such a feature is the first 30
    characters of that name, a dash and the sanitized session name. *)
Theorem valid_feature_name_in_session_id :
  ∀ feature session,
    feature_name_valid feature = true →
    replace_outside_class feature = underscores_to_dashes feature ∧
    getSessionName feature session =
      substring 0 30 (underscores_to_dashes feature +:+ "-"
                      +:+ replace_outside_class session).
Proof.
  intros feature session [_ Hchars]%andb_true_iff.
  assert (replace_outside_class feature = underscores_to_dashes feature) as Heq.
  { clear -Hchars. induction feature as [|c f IH]; [done|]. simpl in *.
    apply andb_true_iff in Hchars as [Hc Hf].
    by rewrite sanitize_name_char, IH. }
  split; [done|]. unfold getSessionName, dashed.
  by rewrite !replace_outside_class_app, Heq.
Qed.

Lemma valid_feature_name_in_session_id_witness :
  replace_outside_class "user_auth" = "user-auth" ∧
  getSessionName "user_auth" "dev.1" = "user-auth-dev-1".
Proof.
  destruct (valid_feature_name_in_session_id "user_auth" "dev.1") as [H1 H2];
    [by vm_compute|].
  split; [by rewrite H1|by rewrite H2].
Defined.

(** ** Setting up one feature *)

Section SetupFacts.

Context {W : Type} `{Runtime W}.

Lemma createTmuxSession_setup path feature session worktreePath :
  tame (setup_event path)
       (createTmuxSession (W := W) feature session worktreePath).
Proof.
  unfold createTmuxSession.
  apply tame_bind; [tame|]. intros [|]; [tame|].
  apply tame_bind; [tame|]. intros _.
  apply tame_bind; [apply tame_for_each; tame|]. intros _.
  apply tame_bind; [destruct (layout session); tame|]. intros _.
  tame.
Qed.

Lemma injectPrompts_setup path sessionName prompts :
  tame (setup_event path) (injectPrompts (W := W) sessionName prompts).
Proof.
  unfold injectPrompts. apply tame_for_each. intros [i p].
  destruct (String.eqb p ""); tame.
Qed.

Lemma customizeClaudeMd_setup feature worktreePath :
  tame (setup_event worktreePath)
       (customizeClaudeMd (W := W) feature worktreePath Split).
Proof.
  unfold customizeClaudeMd. apply tame_bind; [|tame].
  apply tame_call. simpl. by rewrite String.eqb_refl.
Qed.

(** What [createOrchestraSession] does once it has the worktree path. *)
Lemma feature_sessions_tame feature worktreePath :
  tame (setup_event worktreePath)
    (for_each (sessions feature) (λ session,
       sessionName ← createTmuxSession (W := W) (name feature) session worktreePath;
       if 0 <? length (prompts session)
       then injectPrompts sessionName (prompts session)
       else mret tt);;
     if truthy (claudeContext feature) || bool_decide (is_Some (agents feature))
     then customizeClaudeMd feature worktreePath Split
     else mret tt).
Proof.
  apply tame_bind.
  - apply tame_for_each. intros session.
    apply tame_bind; [apply createTmuxSession_setup|]. intros sessionName.
    destruct (0 <? _); [apply injectPrompts_setup|apply tame_ret].
  - intros _. destruct (_ || _); [apply customizeClaudeMd_setup|apply tame_ret].
Qed.

Lemma feature_sessions_visit feature worktreePath (w : World W) s :
  let run :=
    (for_each (sessions feature) (λ session,
       sessionName ← createTmuxSession (W := W) (name feature) session worktreePath;
       if 0 <? length (prompts session)
       then injectPrompts sessionName (prompts session)
       else mret tt);;
     if truthy (claudeContext feature) || bool_decide (is_Some (agents feature))
     then customizeClaudeMd feature worktreePath Split
     else mret tt) w in
  run.1 = Return tt → s ∈ sessions feature →
  ∃ pre post,
    trace run.2 = trace w ++ pre
      ++ Called (Tmux ["has-session"; "-t";
                       getSessionName (name feature) (sc_name s)]) :: post.
Proof.
  intros run. destruct run as [r w'] eqn:Hrun. subst run. simpl. intros -> Hs.
  apply bind_returned in Hrun as (u & w1 & Hloop & Hrest).
  eapply recorded_run in Hrest as (post1 & Ht1 & _).
  2:{ destruct (_ || _); [apply customizeClaudeMd_recorded|recorded]. }
  destruct u.
  eapply for_each_visit in Hloop
    as (wa & wb & pre & post2 & Hbody & Hta & _ & Htb); [| |exact Hs].
  2:{ intros session. apply recorded_bind; [apply createTmuxSession_recorded|].
      intros sessionName.
      destruct (0 <? _); [apply injectPrompts_recorded|recorded]. }
  cbv beta in Hbody.
  apply bind_returned in Hbody as (id & wc & Hcreate & Hinject).
  eapply recorded_run in Hinject as (post3 & Ht3 & _).
  2:{ destruct (0 <? _); [apply injectPrompts_recorded|recorded]. }
  apply createTmuxSession_first_requests in Hcreate as (post4 & Ht4 & _).
  exists pre, (post4 ++ post3 ++ post2 ++ post1).
  rewrite Ht1, Htb, Ht3, Ht4, Hta. by repeat (rewrite <-app_assoc; simpl).
Qed.

Lemma filter_setup_events path (f : Event → bool) evs :
  (∀ ev, setup_event path ev → f ev = false) →
  Forall (setup_event path) evs → filter f evs = [].
Proof.
  intros Hf. induction 1 as [|ev evs Hev _ IH]; [done|].
  rewrite filter_cons_False; [done|]. rewrite (Hf ev Hev). by intros [].
Qed.

End SetupFacts.

(** X18. Setting up one feature with its worktree starts by asking for the
    worktree of the feature's name on the feature's base branch, or on
    [main] when the feature names none.  When that request is rejected the
    error is thrown and nothing else is requested.  Otherwise every event
    that follows is a tmux request of the builder or the injector, the
    delay of 100 ms, or the write of CLAUDE.md in the worktree that was
    answered; when the setup returns, tmux has been asked for every session
    of the feature; and the process is never ended. *)
Theorem createOrchestraSession_with_worktree :
  ∀ (W : Type) (R : Runtime W) (getWorktreePath : string → M W string)
    (feature : FeatureConfig) (w : World W),
    let request := GitCreateWorktree (name feature) (base_or_main feature) in
    let run := createOrchestraSession getWorktreePath feature false w in
    match (answer request (outside w)).1 with
    | inl e =>
        run = (Throw e,
               mkWorld (answer request (outside w)).2
                       (trace w ++ [Called request]))
    | inr worktreePath =>
        ∃ evs,
          trace run.2 = trace w ++ Called request :: evs ∧
          Forall (setup_event worktreePath) evs ∧
          (∀ c, run.1 ≠ Exit c) ∧
          (run.1 = Return tt →
           ∀ s, s ∈ sessions feature →
             Called (Tmux ["has-session"; "-t";
                           getSessionName (name feature) (sc_name s)]) ∈ evs)
    end.
Proof.
  intros W R gwp feature w request run. subst run.
  unfold createOrchestraSession. simpl negb. cbv iota.
  rewrite run_bind, run_call. fold (base_or_main feature). fold request.
  destruct (answer request (outside w)) as [[e|worktreePath] o] eqn:Ha; simpl;
    [done|].
  destruct (feature_sessions_tame feature worktreePath
              (mkWorld o (trace w ++ [Called request])))
    as [(evs & Ht & Hevs) Hexit].
  exists evs. split_and!; [|done..|].
  - etrans; [exact Ht|]. simpl. by rewrite <-app_assoc.
  - intros Hret s Hs.
    destruct (feature_sessions_visit _ _ _ _ Hret Hs) as (pre & post & Hv).
    rewrite Ht in Hv. apply app_inv_head in Hv. subst evs. set_solver.
Qed.

Lemma createOrchestraSession_with_worktree_witness :
  let f := mkFeatureConfig "auth" "login" (Some "develop") None [Sim.backend]
             (Some "Use OAuth2") None [] in
  let w := Sim.start Sim.initial in
  let run := createOrchestraSession (λ n, mret ("/wt/" +:+ n)) f false w in
  run.1 = Return tt ∧
  ∃ evs,
    trace run.2 = trace w ++ Called (GitCreateWorktree "auth" "develop") :: evs ∧
    Forall (setup_event (Sim.worktree_dir "auth")) evs ∧
    (∀ c, run.1 ≠ Exit c) ∧
    (run.1 = Return tt →
     ∀ s, s ∈ sessions f →
       Called (Tmux ["has-session"; "-t"; getSessionName (name f) (sc_name s)])
       ∈ evs).
Proof.
  split; [by vm_compute|].
  exact (createOrchestraSession_with_worktree _ _ (λ n, mret ("/wt/" +:+ n))
           (mkFeatureConfig "auth" "login" (Some "develop") None [Sim.backend]
              (Some "Use OAuth2") None [])
           (Sim.start Sim.initial)).
Defined.

(** X19. Setting up one feature without its worktree, where the path of the
    existing worktree is found, requests no worktree at all: every event is
    a tmux request of the builder or the injector, the delay of 100 ms, or
    the write of CLAUDE.md in that worktree; when the setup returns, tmux
    has been asked for every session of the feature; and the process is
    never ended. *)
Theorem createOrchestraSession_skip_worktree :
  ∀ (W : Type) (R : Runtime W) (getWorktreePath : string → M W string)
    (feature : FeatureConfig) (w : World W) (worktreePath : string),
    getWorktreePath (name feature) w = (Return worktreePath, w) →
    let run := createOrchestraSession getWorktreePath feature true w in
    (∃ evs, trace run.2 = trace w ++ evs ∧
            Forall (setup_event worktreePath) evs ∧
            (run.1 = Return tt →
             ∀ s, s ∈ sessions feature →
               Called (Tmux ["has-session"; "-t";
                             getSessionName (name feature) (sc_name s)]) ∈ evs)) ∧
    creations (trace run.2) = creations (trace w) ∧
    deletions (trace run.2) = deletions (trace w) ∧
    (∀ c, run.1 ≠ Exit c).
Proof.
  intros W R gwp feature w worktreePath Hpath run. subst run.
  unfold createOrchestraSession. simpl negb. cbv iota.
  rewrite run_bind, Hpath.
  destruct (feature_sessions_tame feature worktreePath w)
    as [(evs & Ht & Hevs) Hexit].
  split_and!; [| | |done].
  - exists evs. split_and!; [done..|]. intros Hret s Hs.
    destruct (feature_sessions_visit _ _ _ _ Hret Hs) as (pre & post & Hv).
    rewrite Ht in Hv. apply app_inv_head in Hv. subst evs. set_solver.
  - etrans; [exact (f_equal creations Ht)|]. unfold creations.
    rewrite filter_app, (filter_setup_events worktreePath is_create evs),
      app_nil_r; [done| |done].
    intros ev Hev. by destruct ev as [[]| | |].
  - etrans; [exact (f_equal deletions Ht)|]. unfold deletions.
    rewrite filter_app, (filter_setup_events worktreePath is_delete evs),
      app_nil_r; [done| |done].
    intros ev Hev. by destruct ev as [[]| | |].
Qed.

Lemma createOrchestraSession_skip_worktree_witness :
  let f := mkFeatureConfig "auth" "login" None None [Sim.backend]
             (Some "Use OAuth2") None [] in
  let w := Sim.start (Sim.mkSim [] ["auth"] [] [] []) in
  let run := createOrchestraSession (λ n, mret ("/wt/" +:+ n)) f true w in
  run.1 = Return tt ∧
  (∃ evs, trace run.2 = trace w ++ evs ∧
          Forall (setup_event "/wt/auth") evs ∧
          (run.1 = Return tt →
           ∀ s, s ∈ sessions f →
             Called (Tmux ["has-session"; "-t";
                           getSessionName (name f) (sc_name s)]) ∈ evs)) ∧
  creations (trace run.2) = creations (trace w) ∧
  deletions (trace run.2) = deletions (trace w) ∧
  (∀ c, run.1 ≠ Exit c).
Proof.
  split; [by vm_compute|].
  exact (createOrchestraSession_skip_worktree _ _ (λ n, mret ("/wt/" +:+ n))
           (mkFeatureConfig "auth" "login" None None [Sim.backend]
              (Some "Use OAuth2") None [])
           (Sim.start (Sim.mkSim [] ["auth"] [] [] []))
           "/wt/auth" eq_refl).
Defined.
